(** * Gauss elimination with a trace ([gauss-latex/gauss.py])

    A shallow embedding of the generator [gauss] of [gauss.py] and of the
    operations it performs on the matrix, followed by the properties of the
    trace it yields.

    - Coefficients are Python [Fraction]s: exact rationals kept in lowest
      terms.  They are modelled as [Qc], the canonical rationals.
    - The matrix is a Python list of lists, mutated in place by the
      generator.  It is modelled as [list (list Qc)] threaded through the
      computation; [a[i] = row] is [<[i:=row]> a] and [a[i]] is [a !! i],
      which raises [IndexError] out of range.
    - A generator is modelled by the list of events it produces, its final
      matrix and how it ended (returned, or raised an exception).
    - The helpers [exp_swap], [exp_divide], [exp_minus] live in
      [helpers.py]; they are taken as parameters (class [Helpers]). *)

From Stdlib Require Import QArith Qcanon Ascii.
From stdpp Require Import base numbers list strings.

Open Scope Qc_scope.

(** ** Data model *)

Abbreviation Row := (list Qc).
Abbreviation Matrix := (list (list Qc)).

(** The exceptions the code of [gauss] can raise. *)
Inductive Exn := ZeroDivisionError | IndexError | ValueError.

(** The explanation helpers imported from [helpers.py]:
    [exp_swap(i, r, produce_latex)], [exp_divide(divisor, produce_latex)]
    and [exp_minus(factor, i, produce_latex)], each returning a text. *)
Class Helpers := {
  Text : Type;
  exp_swap : nat -> nat -> bool -> Text;
  exp_divide : Qc -> bool -> Text;
  exp_minus : Qc -> nat -> bool -> Text
}.

(** Modelled from the spec: [helpers.py] is not part of the sources.  The
    spec describes the explanation renderer as a pure function of the kind
    of the explanation (swap, divide, subtract), its operands and the
    formatting flag; this instance keeps exactly those.  It is used for
    concrete runs only; the theorems hold for every instance. *)
Inductive Explanation :=
| Swap (i r : nat) (produce_latex : bool)
| Divide (divisor : Qc) (produce_latex : bool)
| Minus (factor : Qc) (i : nat) (produce_latex : bool).

Definition symbolic_helpers : Helpers :=
  {| Text := Explanation; exp_swap := Swap; exp_divide := Divide;
     exp_minus := Minus |}.

Section Engine.
Context `{H : Helpers}.

(** A Python [dict] {line nr: explanation}, in insertion order. *)
Definition Explanations := list (nat * Text).

(** [d[k] = v] *)
Fixpoint dict_set (k : nat) (v : Text) (d : Explanations) : Explanations :=
  match d with
  | [] => [(k, v)]
  | (k', v') :: d' =>
      if Nat.eqb k k' then (k, v) :: d' else (k', v') :: dict_set k v d'
  end.

Definition keys (d : Explanations) : list nat := map fst d.

(** A trace frame: the tuple [(matrix or None, dict or None)] that is
    yielded.  The matrix is recorded with the value it has at the yield.
    [list(a)] copies the list of rows, and the rows themselves are only
    ever replaced, never changed in place, so such a frame keeps its
    value.  The frame [(a, dict())] of the [except] branch holds the
    matrix object itself; on a rectangular matrix nothing changes the
    matrix after such a yield (lemma [run_frames]: these frames carry the
    final matrix). *)
Definition Frame := (option Matrix * option Explanations)%type.

Definition sentinel : Frame := (None, Some []).

(** What a run of the generator produces: the frames it yields and, as
    ghost information, the invocations of [gauss] it enters. *)
Inductive Event :=
| Yield (f : Frame)
| Enter (a : Matrix) (i j : nat).

(** ** Fallible expressions: [Exn + A] *)

Definition Res (A : Type) := (Exn + A)%type.

Definition rbind {A B} (m : Res A) (k : A -> Res B) : Res B :=
  match m with
  | inl e => inl e
  | inr x => k x
  end.

(** ** Generators: events, then a result or an exception; [None] when the
    fuel of the model ran out. *)

Definition Gen (A : Type) := option (list Event * Res A).

Definition ret {A} (x : A) : Gen A := Some ([], inr x).
Definition raise {A} (e : Exn) : Gen A := Some ([], inl e).
Definition yield (f : Frame) : Gen unit := Some ([Yield f], inr tt).
Definition enter (a : Matrix) (i j : nat) : Gen unit :=
  Some ([Enter a i j], inr tt).
Definition lift {A} (r : Res A) : Gen A := Some ([], r).

Definition bind {A B} (m : Gen A) (k : A -> Gen B) : Gen B :=
  match m with
  | None => None
  | Some (ev, inl e) => Some (ev, inl e)
  | Some (ev, inr x) =>
      match k x with
      | None => None
      | Some (ev', r) => Some (ev ++ ev', r)
      end
  end.

(** [try: m except ZeroDivisionError: h]; the result [None] of the whole
    says that the handler ran. *)
Definition try_zero_div {A} (m : Gen A) (h : Gen unit) : Gen (option A) :=
  match m with
  | None => None
  | Some (ev, inl ZeroDivisionError) =>
      match h with
      | None => None
      | Some (ev', inl e) => Some (ev ++ ev', inl e)
      | Some (ev', inr _) => Some (ev ++ ev', inr None)
      end
  | Some (ev, inl e) => Some (ev, inl e)
  | Some (ev, inr x) => Some (ev, inr (Some x))
  end.

End Engine.

Declare Scope gen_scope.
Delimit Scope gen_scope with gen.
Notation "x <- m ;; k" := (bind m (fun x => k))
  (at level 20, m at level 99, k at level 200, only parsing) : gen_scope.
Notation "' pat <- m ;; k" := (bind m (fun x => let 'pat := x in k))
  (at level 20, pat pattern, m at level 99, k at level 200, only parsing)
  : gen_scope.
Notation "m ;;; k" := (bind m (fun _ => k))
  (at level 100, k at level 200, right associativity, only parsing)
  : gen_scope.
Notation "x <~ m ;; k" := (rbind m (fun x => k))
  (at level 20, m at level 99, k at level 200, only parsing) : gen_scope.

Section Gauss.
Context `{H : Helpers}.
Open Scope gen_scope.

(** ** Reading the matrix *)

(** [a[i]] *)
Definition row_at (a : Matrix) (i : nat) : Res Row :=
  match a !! i with
  | Some row => inr row
  | None => inl IndexError
  end.

(** [a[i][j]] *)
Definition entry (a : Matrix) (i j : nat) : Res Qc :=
  row <~ row_at a i ;;
  match row !! j with
  | Some x => inr x
  | None => inl IndexError
  end.

(** [x == 0] on fractions *)
Definition is_zero (x : Qc) : bool := bool_decide (x = 0).

(** [check_matrix(matrix)]: all rows have the length of the first one. *)
Definition check_matrix (matrix : Matrix) : Res unit :=
  row_0 <~ row_at matrix 0 ;;
  let len_first := length row_0 in
  if forallb (fun row => Nat.eqb (length row) len_first) matrix then inr tt
  else inl ValueError.

(** ** The operations of a round *)

(** The search of the loop [for r in range(i + 1, m): if a[r][j] != 0],
    started at row [r] with [cnt] rows left: the first row with a non-zero
    entry in column [j], or [None] when the loop runs to its [else]. *)
Fixpoint first_nonzero (a : Matrix) (j r cnt : nat) : Res (option nat) :=
  match cnt with
  | 0 => inr None
  | S cnt =>
      x <~ entry a r j ;;
      if is_zero x then first_nonzero a j (S r) cnt else inr (Some r)
  end.

(** [a[r], a[i] = a[i], a[r]] *)
Definition swap_rows (a : Matrix) (i r : nat) : Res Matrix :=
  row_i <~ row_at a i ;;
  row_r <~ row_at a r ;;
  if bool_decide (r < length a)%nat then
    let a1 := <[r := row_i]> a in
    if bool_decide (i < length a1)%nat then inr (<[i := row_r]> a1)
    else inl IndexError
  else inl IndexError.

(** [coeff / divisor] on fractions *)
Definition fdiv (x d : Qc) : Res Qc :=
  if is_zero d then inl ZeroDivisionError else inr (x / d).

(** [[coeff / divisor for coeff in row]] *)
Fixpoint div_row (row : Row) (d : Qc) : Res Row :=
  match row with
  | [] => inr []
  | x :: row' =>
      y <~ fdiv x d ;;
      ys <~ div_row row' d ;;
      inr (y :: ys)
  end.

(** [[coeff_k - factor * coeff_i for (coeff_k, coeff_i) in zip(row_k, row_i)]] *)
Definition sub_row (factor : Qc) (row_k row_i : Row) : Row :=
  zip_with (fun coeff_k coeff_i => coeff_k - factor * coeff_i) row_k row_i.

(** The loop [for k in range(i + 1, m)] of the elimination, at row [k] with
    [cnt] rows left. *)
Fixpoint eliminate (a : Matrix) (i j k cnt : nat) (explanations : Explanations)
    (produce_latex : bool) : Res (Matrix * Explanations) :=
  match cnt with
  | 0 => inr (a, explanations)
  | S cnt =>
      factor <~ entry a k j ;;
      row_k <~ row_at a k ;;
      row_i <~ row_at a i ;;
      if bool_decide (k < length a)%nat then
        eliminate (<[k := sub_row factor row_k row_i]> a) i j (S k) cnt
          (dict_set k (exp_minus factor i produce_latex) explanations)
          produce_latex
      else inl IndexError
  end.

(** The body of the [try]: the row [i] divided by the pivot. *)
Definition normalize (a : Matrix) (i j : nat) (produce_latex : bool)
    : Gen Matrix :=
  divisor <- lift (entry a i j) ;;
  row_i <- lift (row_at a i) ;;
  row' <- lift (div_row row_i divisor) ;;
  a' <- lift (if bool_decide (i < length a)%nat then inr (<[i := row']> a)
              else inl IndexError) ;;
  yield (Some a', Some [(i, exp_divide divisor produce_latex)]) ;;;
  ret a'.

(** ** The generator *)

(** The second half of an invocation, from the [try] on: the division of
    the pivot row, the elimination below it and the recursive call on the
    next row and column.  [m] is the height read at the start. *)
Definition finish_round (rec : Matrix -> nat -> nat -> Gen Matrix)
    (a : Matrix) (i j m : nat) (produce_latex : bool) : Gen Matrix :=
  normalized <- try_zero_div (normalize a i j produce_latex)
                  (yield (Some a, Some [])) ;;
  match normalized with
  | None => ret a
  | Some a =>
      '(a, explanations) <-
        lift (eliminate a i j (i + 1) (m - (i + 1)) [] produce_latex) ;;
      yield (Some a, Some explanations) ;;;
      rec a (i + 1)%nat (j + 1)%nat
  end.

(** One invocation of [gauss(a, i, j, produce_latex)], with [rec] for the
    recursive calls.  The result is the matrix as the invocation leaves
    it. *)
Definition gauss_body (rec : Matrix -> nat -> nat -> Gen Matrix)
    (a : Matrix) (i j : nat) (produce_latex : bool) : Gen Matrix :=
  enter a i j ;;;
  (if Nat.eqb i j && Nat.eqb j 0 then yield (Some a, None) else ret tt) ;;;
  let m := length a in
  row_0 <- lift (row_at a 0) ;;
  let n := length row_0 in
  if Nat.eqb i m || Nat.eqb j n then
    yield sentinel ;;; ret a
  else
    pivot <- lift (entry a i j) ;;
    a <- (if is_zero pivot then
            found <- lift (first_nonzero a j (i + 1) (m - (i + 1))) ;;
            match found with
            | Some r =>
                a' <- lift (swap_rows a i r) ;;
                yield (Some a', Some [(i, exp_swap i r produce_latex)]) ;;;
                ret a'
            | None => rec a i (j + 1)%nat
            end
          else ret a) ;;
    finish_round rec a i j m produce_latex.

(** [gauss], by recursion on the fuel: one unit per nested invocation. *)
Fixpoint gauss (fuel : nat) (a : Matrix) (i j : nat) (produce_latex : bool)
    : Gen Matrix :=
  match fuel with
  | 0 => None
  | S fuel =>
      gauss_body (fun a i j => gauss fuel a i j produce_latex)
        a i j produce_latex
  end.

(** The frames of a run, in the order they are yielded. *)
Definition frames_of (ev : list Event) : list Frame :=
  omap (fun e => match e with Yield f => Some f | Enter _ _ _ => None end) ev.

(** The invocations of a run, in the order they are entered. *)
Definition calls_of (ev : list Event) : list (Matrix * nat * nat) :=
  omap (fun e => match e with Enter a i j => Some (a, i, j) | Yield _ => None end)
    ev.


(** ** Specification vocabulary *)

(** A matrix of [m] rows that all have [n] coefficients. *)
Definition rect (m n : nat) (a : Matrix) : Prop :=
  length a = m /\ Forall (fun row => length row = n) a.

(** The coefficient at row [r] and column [c] ([0] outside the matrix). *)
Definition coeff (a : Matrix) (r c : nat) : Qc :=
  match a !! r with
  | Some row => default 0 (row !! c)
  | None => 0
  end.

(** Column [c] is zero in every row from [i] on. *)
Definition zero_below (a : Matrix) (i c : nat) : Prop :=
  forall r, (i <= r)%nat -> coeff a r c = 0.

(** The block of the rows from [i] on and the columns before [j] is zero. *)
Definition zero_block (a : Matrix) (i j : nat) : Prop :=
  forall r c, (i <= r)%nat -> (c < j)%nat -> coeff a r c = 0.

(** The matrices [a] and [b] have the same rows before row [i]. *)
Definition same_above (a b : Matrix) (i : nat) : Prop :=
  forall r, (r < i)%nat -> a !! r = b !! r.

(** The frame that opens the trace at the start of a run. *)
Definition initial_frame (a : Matrix) (i j : nat) : list Event :=
  if Nat.eqb i j && Nat.eqb j 0 then [Yield (Some a, None)] else [].

(** The generator [g] after the events [ev]. *)
Definition emit {A} (ev : list Event) (g : Gen A) : Gen A :=
  match g with
  | None => None
  | Some (ev', r) => Some (ev ++ ev', r)
  end.

(** The width [len(a[0])] of a matrix. *)
Definition width (a : Matrix) : nat :=
  match a !! 0%nat with
  | Some row_0 => length row_0
  | None => 0
  end.

(** The pivot row divided by [d]. *)
Definition scaled (a : Matrix) (i : nat) (d : Qc) : Matrix :=
  match a !! i with
  | Some row => <[i := map (fun x => x / d) row]> a
  | None => a
  end.

(** ** The runs of [gauss] on a rectangular matrix, as a relation

    [run m n produce_latex a i j ev a'] says that the invocation
    [gauss(a, i, j, produce_latex)] on a matrix of [m] rows and [n] columns
    produces the events [ev] and leaves the matrix [a']. *)

(** The zero-pivot handling that finds a pivot: nothing happens when the
    pivot is non-zero, else row [i] is swapped with the first row below it
    that has a non-zero entry in column [j]. *)
Inductive selected (m : nat) (produce_latex : bool) (a : Matrix) (i j : nat)
  : list Event -> Matrix -> Prop :=
| selected_pivot :
    coeff a i j <> 0 -> selected m produce_latex a i j [] a
| selected_swap r row_i row_r :
    coeff a i j = 0 ->
    first_nonzero a j (i + 1) (m - (i + 1)) = inr (Some r) ->
    a !! i = Some row_i -> a !! r = Some row_r ->
    selected m produce_latex a i j
      [Yield (Some (<[i := row_r]> (<[r := row_i]> a)),
              Some [(i, exp_swap i r produce_latex)])]
      (<[i := row_r]> (<[r := row_i]> a)).

Inductive run (m n : nat) (produce_latex : bool)
  : Matrix -> nat -> nat -> list Event -> Matrix -> Prop :=
| run_boundary a i j :
    i = m \/ j = n ->
    run m n produce_latex a i j
      (Enter a i j :: initial_frame a i j ++ [Yield sentinel]) a
| run_skip a i j ev a' :
    (i < m)%nat -> (j < n)%nat -> coeff a i j = 0 ->
    first_nonzero a j (i + 1) (m - (i + 1)) = inr None ->
    run m n produce_latex a i (j + 1) ev a' ->
    run m n produce_latex a i j
      (Enter a i j :: initial_frame a i j ++ ev ++ [Yield (Some a', Some [])])
      a'
| run_round a i j sw b a2 e ev a' :
    (i < m)%nat -> (j < n)%nat ->
    selected m produce_latex a i j sw b ->
    eliminate (scaled b i (coeff b i j)) i j (i + 1) (m - (i + 1)) []
      produce_latex = inr (a2, e) ->
    run m n produce_latex a2 (i + 1) (j + 1) ev a' ->
    run m n produce_latex a i j
      (Enter a i j :: initial_frame a i j ++ sw ++
       Yield (Some (scaled b i (coeff b i j)),
              Some [(i, exp_divide (coeff b i j) produce_latex)]) ::
       Yield (Some a2, Some e) :: ev)
      a'.

(** The invocations of a run descend through the matrix: each one is
    entered one column to the right of the one before, on the same row or
    on the next one, inside the bounds [m] and [n]. *)
Inductive descent (m n : nat) : list (Matrix * nat * nat) -> Prop :=
| descent_last a i j : descent m n [(a, i, j)]
| descent_next a i j b i' j' rest :
    j' = (j + 1)%nat -> i' = i \/ i' = (i + 1)%nat ->
    (i' <= m)%nat -> (j' <= n)%nat ->
    descent m n ((b, i', j') :: rest) ->
    descent m n ((a, i, j) :: (b, i', j') :: rest).

(** The invocation [gauss(a, i, j)] finds its pivot zero and no row to
    swap with, and skips the column. *)
Definition skips (a : Matrix) (i j : nat) : bool :=
  bool_decide (i < length a)%nat && bool_decide (j < width a)%nat &&
  is_zero (coeff a i j) &&
  match first_nonzero a j (i + 1) (length a - (i + 1)) with
  | inr None => true
  | _ => false
  end.

(** The number of invocations of a run that skip their column. *)
Definition skipped (ev : list Event) : nat :=
  length (filter (fun c => skips c.1.1 c.1.2 c.2 = true) (calls_of ev)).

(** The form in which a run leaves the matrix, from position [(i, j)] on:
    at every position the run passes, either the column is zero from row
    [i] on (the column was skipped), or the pivot is [1] with zeros below
    it (the column was eliminated). *)
Inductive reduced (m n : nat) (a : Matrix) : nat -> nat -> Prop :=
| reduced_end i j : i = m \/ j = n -> reduced m n a i j
| reduced_skip i j :
    (i < m)%nat -> (j < n)%nat -> zero_below a i j ->
    reduced m n a i (j + 1) -> reduced m n a i j
| reduced_pivot i j :
    (i < m)%nat -> (j < n)%nat -> coeff a i j = 1 ->
    zero_below a (i + 1) j ->
    reduced m n a (i + 1) (j + 1) -> reduced m n a i j.

(** The frames that a run yields when it finds nothing to change in the
    matrix [final] of [m] rows: the opening frame without explanation,
    the sentinel, the frame of a skipped column (empty explanation), the
    frame of a division by [1], and the frame of an elimination below
    row [i] in which every factor is [0]. *)
Definition unchanged_frame (m : nat) (final : Matrix) (produce_latex : bool)
    (f : Frame) : Prop :=
  f = (Some final, None) \/
  f = sentinel \/
  f = (Some final, Some []) \/
  (exists i, f = (Some final, Some [(i, exp_divide 1 produce_latex)])) \/
  (exists i,
     f = (Some final,
          Some (map (fun k => (k, exp_minus 0 i produce_latex))
                  (seq (i + 1) (m - (i + 1)))))).

(** The invocation [c] of [gauss] is entered with the matrix [final] and
    takes no swap: inside the matrix, its pivot is [1], or its pivot is
    zero and the search below it finds no row. *)
Definition no_swap (m n : nat) (final : Matrix) (c : Matrix * nat * nat)
    : Prop :=
  c.1.1 = final /\
  ((c.1.2 < m)%nat -> (c.2 < n)%nat ->
   coeff final c.1.2 c.2 = 1 \/
   (coeff final c.1.2 c.2 = 0 /\
    first_nonzero final c.2 (c.1.2 + 1) (m - (c.1.2 + 1)) = inr None)).

(** A frame without the texts of its explanation: the matrix and the keys
    of the explanation. *)
Definition erase_frame (f : Frame) : option Matrix * option (list nat) :=
  (f.1, keys <$> f.2).

Definition erase_event (e : Event)
  : (option Matrix * option (list nat)) + (Matrix * nat * nat) :=
  match e with
  | Yield f => inl (erase_frame f)
  | Enter a i j => inr (a, i, j)
  end.

(** A run without the texts of its explanations. *)
Definition erase_run (g : Gen Matrix)
  : option (list (option Matrix * option (list nat)) * Res Matrix) :=
  match g with
  | None => None
  | Some (ev, r) => Some (map erase_frame (frames_of ev), r)
  end.

(** Two generators that differ in the texts of the explanations only;
    their results are related by [R]. *)
Definition same_run {A} (R : A -> A -> Prop) (g1 g2 : Gen A) : Prop :=
  match g1, g2 with
  | None, None => True
  | Some (ev1, r1), Some (ev2, r2) =>
      map erase_event ev1 = map erase_event ev2 /\
      match r1, r2 with
      | inl e1, inl e2 => e1 = e2
      | inr x1, inr x2 => R x1 x2
      | _, _ => False
      end
  | _, _ => False
  end.

(** ** Concrete inputs *)

(** [Fraction(z)] for an integer [z]. *)
Definition fraction (z : Z) : Qc := Q2Qc (inject_Z z).

(** The matrix that [fill_matrix] builds from rows of integers. *)
Definition of_ints (rows : list (list Z)) : Matrix := map (map fraction) rows.

(** The fractions of a matrix as numerator and denominator. *)
Definition rationals (a : Matrix) : list (list Q) := map (map this) a.

(** The input rows ["1;1;3"] and ["2;-1;0"]. *)
Definition rows_unique : Matrix := of_ints [[1; 1; 3]; [2; -1; 0]]%Z.

(** The singular matrix [[0,1,5],[0,2,10]]. *)
Definition rows_singular : Matrix := of_ints [[0; 1; 5]; [0; 2; 10]]%Z.

(** The input rows ["0;1;5"] and ["1;1;8"]. *)
Definition rows_swap : Matrix := of_ints [[0; 1; 5]; [1; 1; 8]]%Z.

(** The matrix of the last frame that carries one. *)
Definition final_matrix (fs : list Frame) : option Matrix :=
  last (omap fst fs).

(** ** The rest of [gauss.py]: [main] and [fill_matrix] *)

(** [';' in arg] *)
Fixpoint contains_semicolon (arg : string) : bool :=
  match arg with
  | EmptyString => false
  | String c arg' => Ascii.eqb c ";"%char || contains_semicolon arg'
  end.

(** [arg.startswith(c)] for a character [c] *)
Definition starts_with (c : ascii) (arg : string) : bool :=
  match arg with
  | EmptyString => false
  | String c' _ => Ascii.eqb c' c
  end.

(** The body of the first loop of [main]:
    [if ';' in arg and not arg.startswith(';'): arg = ' ' + arg]. *)
Definition protect_argument (arg : string) : string :=
  if contains_semicolon arg && negb (starts_with ";"%char arg) then String " "%char arg
  else arg.

(** The first loop of [main], over all of [sys.argv]. *)
Definition protect_arguments (argv : list string) : list string :=
  map protect_argument argv.

(** [row_str.split(';')]: the fields between the semicolons, at least one. *)
Fixpoint split_semicolon (row_str : string) : list string :=
  match row_str with
  | EmptyString => [EmptyString]
  | String c row_str' =>
      if Ascii.eqb c ";"%char then EmptyString :: split_semicolon row_str'
      else match split_semicolon row_str' with
           | field :: fields => String c field :: fields
           | [] => [String c EmptyString]
           end
  end.

(** The number of semicolons of a string. *)
Fixpoint count_semicolons (row_str : string) : nat :=
  match row_str with
  | EmptyString => 0
  | String c row_str' =>
      ((if Ascii.eqb c ";"%char then 1 else 0) + count_semicolons row_str')%nat
  end.

(** The constructor [Fraction(text)] of Python's [fractions] module, which
    raises [ValueError] on a text it cannot read: a parameter. *)
Context (Fraction : string -> Res Qc).

(** [Fraction(coeff or 0)]: the empty text stands for [0]. *)
Definition fraction_or_zero (coeff : string) : Res Qc :=
  match coeff with
  | EmptyString => inr 0
  | _ => Fraction coeff
  end.

(** The inner loop of [fill_matrix]:
    [for coeff in fields: row.append(Fraction(coeff or 0))]. *)
Fixpoint fill_row (fields : list string) (row : Row) : Res Row :=
  match fields with
  | [] => inr row
  | coeff :: fields =>
      x <~ fraction_or_zero coeff ;;
      fill_row fields (row ++ [x])
  end.

(** [fill_matrix(args, matrix)] with [rows] for [args.row]; the result is
    the matrix after the appends. *)
Fixpoint fill_matrix (rows : list string) (matrix : Matrix) : Res Matrix :=
  match rows with
  | [] => inr matrix
  | row_str :: rows =>
      row <~ fill_row (split_semicolon row_str) [] ;;
      fill_matrix rows (matrix ++ [row])
  end.

(** The arguments [(last, explanations)] of a call
    [print_matrix(last, explanations, produce_latex)]. *)
Definition PrintCall := (option Matrix * option Explanations)%type.

(** The truth value of [step] in [if step:]. *)
Definition truthy (step : option Matrix) : bool :=
  match step with
  | Some (_ :: _) => true
  | _ => false
  end.

(** One iteration of the loop of [main] over the frames, with the value
    of [last] before it: the calls of [print_matrix] it makes and the
    value of [last] after it. *)
Definition report_frame (skip_unchanged : bool) (last : option Matrix)
    (frame : Frame) : list PrintCall * option Matrix :=
  let '(step, explanations) := frame in
  if skip_unchanged && bool_decide (step = last) then ([], last)
  else
    (if bool_decide (last <> None) && bool_decide (step <> None)
        || skip_unchanged && bool_decide (step = None)
     then [(last, explanations)] else [],
     if truthy step then step else last).

(** The loop of [main] over the frames: the calls of [print_matrix], in
    order. *)
Fixpoint report (skip_unchanged : bool) (last : option Matrix)
    (frames : list Frame) : list PrintCall :=
  match frames with
  | [] => []
  | frame :: frames =>
      let '(printed, last) := report_frame skip_unchanged last frame in
      printed ++ report skip_unchanged last frames
  end.

(** The sum of the products of the coefficients of a row with the
    components of a vector. *)
Fixpoint dot (row v : list Qc) : Qc :=
  match row, v with
  | x :: row', y :: v' => x * y + dot row' v'
  | _, _ => 0
  end.

(** [x] solves the system of the augmented matrix [a]: in every row
    [a1 ... ak b], [a1*x1 + ... + ak*xk - b = 0]. *)
Definition solves (a : Matrix) (x : list Qc) : Prop :=
  forall r row, a !! r = Some row -> dot row (x ++ [-(1)]) = 0.

(** Modelled from the spec: the [fractions] module of Python is not part
    of the sources.  The spec describes the construction of a fraction
    from the text of an integer, of a decimal ("x.y") or of a pair
    "numerator/denominator", which fails on a malformed text and on a
    zero denominator.  The reader below reads these texts, with an
    optional sign and with white space around them (the first loop of
    [main] puts a space in front of a row).  It is used for concrete runs
    only; the theorems hold for every reader [Fraction]. *)
Definition is_space (c : ascii) : bool :=
  let d := nat_of_ascii c in
  bool_decide (d = 32 \/ 9 <= d <= 13)%nat.

Fixpoint strip_left (text : string) : string :=
  match text with
  | EmptyString => EmptyString
  | String c text' => if is_space c then strip_left text' else text
  end.

Definition strip (text : string) : string :=
  String.rev (strip_left (String.rev (strip_left text))).

(** The digits at the start of a text: their value after [acc], their
    number after [count], and the rest of the text. *)
Fixpoint read_digits (acc : Z) (count : nat) (text : string)
    : Z * nat * string :=
  match text with
  | EmptyString => (acc, count, text)
  | String c text' =>
      let d := nat_of_ascii c in
      if bool_decide (48 <= d <= 57)%nat
      then read_digits (10 * acc + Z.of_nat (d - 48)) (S count) text'
      else (acc, count, text)
  end.

(** An unsigned text: digits, digits "/" digits, or digits "." digits
    with a digit on one side of the point at least. *)
Definition read_magnitude (text : string) : Res Q :=
  let '(num, k, rest) := read_digits 0 0 text in
  match rest with
  | EmptyString => if Nat.ltb 0 k then inr (num # 1)%Q else inl ValueError
  | String c rest' =>
      let '(snd_value, k', rest'') := read_digits 0 0 rest' in
      match rest'' with
      | EmptyString =>
          if Ascii.eqb c "/"%char then
            if Nat.ltb 0 k && Nat.ltb 0 k' && Z.ltb 0 snd_value
            then inr (num # Z.to_pos snd_value)%Q
            else inl ValueError
          else if Ascii.eqb c "."%char then
            if Nat.ltb 0 (k + k')
            then inr ((num * 10 ^ Z.of_nat k' + snd_value)
                      # Z.to_pos (10 ^ Z.of_nat k'))%Q
            else inl ValueError
          else inl ValueError
      | String _ _ => inl ValueError
      end
  end.

Definition read_fraction (text : string) : Res Qc :=
  let text := strip text in
  let '(negative, text) :=
    match text with
    | String c text' =>
        if Ascii.eqb c "-"%char then (true, text')
        else if Ascii.eqb c "+"%char then (false, text')
        else (false, text)
    | EmptyString => (false, text)
    end in
  match read_magnitude text with
  | inl e => inl e
  | inr q => inr (Q2Qc (if negative then - q else q)%Q)
  end.

(** ** Reading a rectangular matrix *)

Lemma rect_lookup m n a r :
  rect m n a -> (r < m)%nat -> exists row, a !! r = Some row /\ length row = n.
Proof.
  intros [Hm Hn] Hr. destruct (lookup_lt_is_Some_2 a r) as [row Hrow]; [lia|].
  exists row. split; [done|]. rewrite Forall_lookup in Hn. by apply (Hn r).
Qed.

Lemma rect_row_length m n a r row :
  rect m n a -> a !! r = Some row -> length row = n.
Proof. intros [_ Hn] Hrow. rewrite Forall_lookup in Hn. by apply (Hn r). Qed.

Lemma rect_entry m n a r c :
  rect m n a -> (r < m)%nat -> (c < n)%nat -> entry a r c = inr (coeff a r c).
Proof.
  intros Ha Hr Hc. destruct (rect_lookup m n a r Ha Hr) as (row & Hrow & Hlen).
  unfold entry, coeff, row_at, rbind. rewrite Hrow.
  destruct (lookup_lt_is_Some_2 row c) as [x Hx]; [lia|]. by rewrite Hx.
Qed.

Lemma rect_insert m n a r row :
  rect m n a -> length row = n -> rect m n (<[r := row]> a).
Proof.
  intros [Hm Hn] Hrow. split; [by rewrite length_insert|].
  apply Forall_insert; done.
Qed.

Lemma coeff_insert_ne a r r' row c :
  r <> r' -> coeff (<[r := row]> a) r' c = coeff a r' c.
Proof. intros Hne. unfold coeff. by rewrite list_lookup_insert_ne. Qed.

Lemma coeff_insert_eq a r row c :
  (r < length a)%nat -> coeff (<[r := row]> a) r c = default 0 (row !! c).
Proof. intros Hr. unfold coeff. by rewrite list_lookup_insert_eq. Qed.

Lemma coeff_lookup a r row c :
  a !! r = Some row -> coeff a r c = default 0 (row !! c).
Proof. intros Hrow. unfold coeff. by rewrite Hrow. Qed.

Lemma coeff_outside a r c : (length a <= r)%nat -> coeff a r c = 0.
Proof. intros Hr. unfold coeff. by rewrite lookup_ge_None_2. Qed.

Lemma is_zero_true x : is_zero x = true <-> x = 0.
Proof. unfold is_zero. apply bool_decide_eq_true. Qed.

Lemma is_zero_false x : is_zero x = false <-> x <> 0.
Proof. unfold is_zero. apply bool_decide_eq_false. Qed.

(** [check_matrix] accepts exactly the rectangular matrices with a row. *)
Lemma check_matrix_rect a :
  check_matrix a = inr tt <->
  exists m n, (0 < m)%nat /\ rect m n a.
Proof.
  unfold check_matrix, row_at, rbind. split.
  - destruct (a !! 0%nat) as [row0|] eqn:H0; [|done].
    destruct (forallb _ a) eqn:Hall; [|done]. intros _.
    exists (length a), (length row0). split.
    + apply lookup_lt_Some in H0. lia.
    + split; [done|]. apply Forall_forall. intros row Hin.
      rewrite forallb_forall in Hall. apply Nat.eqb_eq, Hall.
      by apply list_elem_of_In.
  - intros (m & n & Hm & Ha).
    destruct (rect_lookup m n a 0 Ha Hm) as (row0 & H0 & Hlen). rewrite H0.
    replace (forallb _ a) with true; [done|]. symmetry.
    apply forallb_forall. intros row Hin. apply Nat.eqb_eq.
    destruct Ha as [_ Hn]. rewrite Forall_forall in Hn.
    rewrite Hlen. apply Hn. by apply list_elem_of_In.
Qed.


(** ** The pivot search *)

Lemma first_nonzero_spec m n a j r cnt :
  rect m n a -> (j < n)%nat -> (r + cnt = m)%nat ->
  match first_nonzero a j r cnt with
  | inl _ => False
  | inr None => zero_below a r j
  | inr (Some r') =>
      (r <= r' < m)%nat /\ coeff a r' j <> 0 /\
      forall k, (r <= k < r')%nat -> coeff a k j = 0
  end.
Proof.
  intros Ha Hj. revert r. induction cnt as [|cnt IH]; intros r Hr; simpl.
  - intros k Hk. apply coeff_outside. destruct Ha as [Hm _]. lia.
  - rewrite (rect_entry m n) by (done || lia). simpl.
    destruct (is_zero (coeff a r j)) eqn:Hz.
    + apply is_zero_true in Hz. specialize (IH (S r) ltac:(lia)).
      destruct (first_nonzero a j (S r) cnt) as [e|[r'|]]; [done| |].
      * destruct IH as (Hr' & Hnz & Hzero). split; [lia|]. split; [done|].
        intros k Hk. destruct (decide (k = r)) as [->|Hne]; [done|].
        apply Hzero. lia.
      * intros k Hk. destruct (decide (k = r)) as [->|Hne]; [done|].
        apply IH. lia.
    + apply is_zero_false in Hz. split; [lia|]. split; [done|]. intros k Hk. lia.
Qed.

Lemma first_nonzero_none m n a j r cnt :
  rect m n a -> (j < n)%nat -> (r + cnt = m)%nat -> zero_below a r j ->
  first_nonzero a j r cnt = inr None.
Proof.
  intros Ha Hj Hr Hzero. pose proof (first_nonzero_spec m n a j r cnt Ha Hj Hr) as Hs.
  destruct (first_nonzero a j r cnt) as [e|[r'|]]; [done| |done].
  destruct Hs as (Hr' & Hnz & _). exfalso. apply Hnz, Hzero. lia.
Qed.

(** ** The swap *)

Lemma swap_rows_ok a i r row_i row_r :
  a !! i = Some row_i -> a !! r = Some row_r ->
  swap_rows a i r = inr (<[i := row_r]> (<[r := row_i]> a)).
Proof.
  intros Hi Hr. unfold swap_rows, row_at, rbind. rewrite Hi, Hr.
  apply lookup_lt_Some in Hi, Hr.
  rewrite bool_decide_eq_true_2 by done.
  rewrite bool_decide_eq_true_2 by (by rewrite length_insert). done.
Qed.

Lemma swap_lookup (a : Matrix) i r row_i row_r k :
  a !! i = Some row_i -> a !! r = Some row_r ->
  <[i := row_r]> (<[r := row_i]> a) !! k =
  if decide (k = i) then Some row_r
  else if decide (k = r) then Some row_i else a !! k.
Proof.
  intros Hi Hr. apply lookup_lt_Some in Hi as Hi', Hr as Hr'.
  destruct (decide (k = i)) as [->|Hki].
  - rewrite list_lookup_insert_eq; [done|]. by rewrite length_insert.
  - rewrite list_lookup_insert_ne by done.
    destruct (decide (k = r)) as [->|Hkr].
    + by rewrite list_lookup_insert_eq.
    + by rewrite list_lookup_insert_ne.
Qed.

Lemma swap_coeff a i r row_i row_r k c :
  a !! i = Some row_i -> a !! r = Some row_r ->
  coeff (<[i := row_r]> (<[r := row_i]> a)) k c =
  coeff a (if decide (k = i) then r else if decide (k = r) then i else k) c.
Proof.
  intros Hi Hr. unfold coeff at 1. rewrite (swap_lookup a i r row_i row_r) by done.
  repeat case_decide; subst; unfold coeff; by rewrite ?Hi, ?Hr.
Qed.

Lemma swap_rect m n a i r row_i row_r :
  rect m n a -> a !! i = Some row_i -> a !! r = Some row_r ->
  rect m n (<[i := row_r]> (<[r := row_i]> a)).
Proof.
  intros Ha Hi Hr. apply rect_insert; [apply rect_insert; [done|]|];
    by eapply rect_row_length.
Qed.

(** ** The division of the pivot row *)

Lemma div_row_ok row d :
  d <> 0 -> div_row row d = inr (map (fun x => x / d) row).
Proof.
  intros Hd. induction row as [|x row IH]; simpl; [done|].
  unfold fdiv. apply is_zero_false in Hd. rewrite Hd. simpl. by rewrite IH.
Qed.

Lemma div_row_zero row : row <> [] -> div_row row 0 = inl ZeroDivisionError.
Proof. destruct row; [done|]. intros _. done. Qed.

Lemma normalize_ok a i j row d produce_latex :
  a !! i = Some row -> row !! j = Some d -> d <> 0 ->
  let a' := <[i := map (fun x => x / d) row]> a in
  normalize a i j produce_latex =
  Some ([Yield (Some a', Some [(i, exp_divide d produce_latex)])], inr a').
Proof.
  intros Hi Hj Hd a'. unfold normalize, entry, row_at, rbind, lift, bind.
  rewrite Hi, Hj, (div_row_ok row d Hd). apply lookup_lt_Some in Hi.
  by rewrite bool_decide_eq_true_2.
Qed.

Lemma normalize_zero a i j row produce_latex :
  a !! i = Some row -> row !! j = Some 0 ->
  normalize a i j produce_latex = Some ([], inl ZeroDivisionError).
Proof.
  intros Hi Hj. unfold normalize, entry, row_at, rbind, lift, bind.
  rewrite Hi, Hj. rewrite div_row_zero; [done|]. by intros ->.
Qed.


(** ** The elimination loop *)

Lemma sub_row_lookup f (row_k row_i : Row) c :
  length row_k = length row_i ->
  default 0 (sub_row f row_k row_i !! c) =
  default 0 (row_k !! c) - f * default 0 (row_i !! c).
Proof.
  intros Hlen. unfold sub_row. rewrite lookup_zip_with.
  destruct (row_k !! c) as [x|] eqn:Hk; simpl.
  - destruct (lookup_lt_is_Some_2 row_i c) as [y Hy].
    { apply lookup_lt_Some in Hk. lia. }
    by rewrite Hy.
  - rewrite (lookup_ge_None_2 row_i c); [simpl; ring|].
    apply lookup_ge_None in Hk. lia.
Qed.

Lemma sub_row_length f (row_k row_i : Row) :
  length row_k = length row_i -> length (sub_row f row_k row_i) = length row_k.
Proof. intros Hlen. unfold sub_row. rewrite length_zip_with. lia. Qed.

Lemma sub_row_zero (row_k row_i : Row) :
  length row_k = length row_i -> sub_row 0 row_k row_i = row_k.
Proof.
  revert row_i. induction row_k as [|x row_k IH]; intros [|y row_i] Hlen;
    simpl in *; try done.
  f_equal; [ring|]. apply IH. lia.
Qed.

Lemma eliminate_spec m n a i j k cnt e produce_latex :
  rect m n a -> (i < k)%nat -> (k + cnt = m)%nat -> (j < n)%nat ->
  exists a' e',
    eliminate a i j k cnt e produce_latex = inr (a', e') /\
    rect m n a' /\ same_above a a' k /\
    forall r c, (k <= r)%nat ->
      coeff a' r c = coeff a r c - coeff a r j * coeff a i c.
Proof.
  intros Ha Hik Hk Hj. revert a k e Ha Hik Hk.
  induction cnt as [|cnt IH]; intros a k e Ha Hik Hk; simpl.
  - exists a, e. split; [done|]. split; [done|]. split; [done|].
    intros r c Hr. rewrite !(coeff_outside a r) by (destruct Ha; lia). ring.
  - destruct (rect_lookup m n a k Ha ltac:(lia)) as (row_k & Hrk & Hlk).
    destruct (rect_lookup m n a i Ha ltac:(lia)) as (row_i & Hri & Hli).
    rewrite (rect_entry m n) by (done || lia). unfold row_at, rbind.
    rewrite Hrk, Hri.
    rewrite bool_decide_eq_true_2 by (destruct Ha; lia).
    set (a1 := <[k := sub_row (coeff a k j) row_k row_i]> a).
    assert (Ha1 : rect m n a1).
    { apply rect_insert; [done|]. rewrite sub_row_length; lia. }
    destruct (IH a1 (S k) (dict_set k (exp_minus (coeff a k j) i produce_latex) e)
                Ha1 ltac:(lia) ltac:(lia)) as (a' & e' & Heq & Ha' & Hsame & Hco).
    exists a', e'. split; [done|]. split; [done|]. split.
    + intros r Hr. rewrite <- Hsame by lia. unfold a1.
      rewrite list_lookup_insert_ne by lia. done.
    + intros r c Hr. destruct (decide (r = k)) as [->|Hne].
      * unfold coeff at 1. rewrite <- Hsame by lia. unfold a1.
        rewrite list_lookup_insert_eq by (destruct Ha; lia).
        rewrite sub_row_lookup by lia.
        by rewrite !(coeff_lookup a k row_k), !(coeff_lookup a i row_i).
      * rewrite Hco by lia. unfold a1.
        rewrite !coeff_insert_ne by lia. done.
Qed.

Lemma eliminate_id m n a i j k cnt e produce_latex :
  rect m n a -> (i < k)%nat -> (k + cnt = m)%nat -> (j < n)%nat ->
  zero_below a k j ->
  exists e', eliminate a i j k cnt e produce_latex = inr (a, e').
Proof.
  intros Ha Hik Hk Hj Hzero. revert k e Hik Hk Hzero.
  induction cnt as [|cnt IH]; intros k e Hik Hk Hzero; simpl.
  - by exists e.
  - destruct (rect_lookup m n a k Ha ltac:(lia)) as (row_k & Hrk & Hlk).
    destruct (rect_lookup m n a i Ha ltac:(lia)) as (row_i & Hri & Hli).
    rewrite (rect_entry m n) by (done || lia). unfold row_at, rbind.
    rewrite Hrk, Hri.
    rewrite bool_decide_eq_true_2 by (destruct Ha; lia).
    rewrite (Hzero k) by lia. rewrite sub_row_zero by lia.
    rewrite list_insert_id by done.
    apply IH; [lia|lia|]. intros r Hr. apply Hzero. lia.
Qed.

(** Two matrices of the same shape with the same coefficients are equal. *)
Lemma rect_ext m n a b :
  rect m n a -> rect m n b ->
  (forall r c, (r < m)%nat -> (c < n)%nat -> coeff a r c = coeff b r c) ->
  a = b.
Proof.
  intros Ha Hb Hco. apply list_eq. intros r.
  destruct (decide (r < m)%nat) as [Hr|Hr].
  - destruct (rect_lookup m n a r Ha Hr) as (ra & Hra & Hla).
    destruct (rect_lookup m n b r Hb Hr) as (rb & Hrb & Hlb).
    rewrite Hra, Hrb. f_equal. apply list_eq. intros c.
    destruct (decide (c < n)%nat) as [Hc|Hc].
    + specialize (Hco r c Hr Hc). unfold coeff in Hco. rewrite Hra, Hrb in Hco.
      destruct (lookup_lt_is_Some_2 ra c) as [x Hx]; [lia|].
      destruct (lookup_lt_is_Some_2 rb c) as [y Hy]; [lia|].
      rewrite Hx, Hy in *. simpl in Hco. by subst.
    + rewrite !lookup_ge_None_2 by lia. done.
  - destruct Ha, Hb. rewrite !lookup_ge_None_2 by lia. done.
Qed.


(** ** One invocation on a rectangular matrix *)

Lemma emit_nil {A} (g : Gen A) : emit [] g = g.
Proof. by destruct g as [[ev r]|]. Qed.

Lemma emit_emit {A} ev1 ev2 (g : Gen A) :
  emit ev1 (emit ev2 g) = emit (ev1 ++ ev2) g.
Proof. destruct g as [[ev r]|]; simpl; [|done]. by rewrite app_assoc. Qed.

Lemma scaled_rect m n a i d : rect m n a -> rect m n (scaled a i d).
Proof.
  intros Ha. unfold scaled. destruct (a !! i) as [row|] eqn:Hi; [|done].
  apply rect_insert; [done|]. rewrite length_map. by eapply rect_row_length.
Qed.

Lemma scaled_coeff a i d r c :
  coeff (scaled a i d) r c =
  if decide (r = i) then coeff a i c / d else coeff a r c.
Proof.
  unfold scaled. destruct (a !! i) as [row|] eqn:Hi.
  - case_decide as Hr; [subst r|by rewrite coeff_insert_ne].
    rewrite coeff_insert_eq by (by eapply lookup_lt_Some).
    rewrite (coeff_lookup a i row) by done. rewrite list_lookup_fmap.
    destruct (row !! c); simpl; [done|]. unfold Qcdiv. ring.
  - case_decide as Hr; [subst r|done].
    unfold coeff. rewrite Hi. unfold Qcdiv. ring.
Qed.

Lemma scaled_same_above a i d : same_above a (scaled a i d) i.
Proof.
  intros r Hr. unfold scaled. destruct (a !! i); [|done].
  by rewrite list_lookup_insert_ne by lia.
Qed.

Lemma Qcdiv_1_r (x : Qc) : x / 1 = x.
Proof. field. done. Qed.

Lemma scaled_one a i : scaled a i 1 = a.
Proof.
  unfold scaled. destruct (a !! i) as [row|] eqn:Hi; [|done].
  apply list_insert_id. rewrite Hi. f_equal. clear Hi.
  induction row as [|x row IH]; simpl; [done|].
  by rewrite Qcdiv_1_r, <- IH.
Qed.

Lemma finish_round_zero rec m n a i j m' produce_latex :
  rect m n a -> (i < m)%nat -> (j < n)%nat -> coeff a i j = 0 ->
  finish_round rec a i j m' produce_latex =
  Some ([Yield (Some a, Some [])], inr a).
Proof.
  intros Ha Hi Hj Hz.
  destruct (rect_lookup m n a i Ha Hi) as (row & Hrow & Hlen).
  destruct (lookup_lt_is_Some_2 row j) as [x Hx]; [lia|].
  rewrite (coeff_lookup a i row), Hx in Hz by done. simpl in Hz. subst x.
  unfold finish_round. by rewrite (normalize_zero a i j row).
Qed.

Lemma finish_round_pivot rec m n a i j m' produce_latex a2 e :
  rect m n a -> (i < m)%nat -> (j < n)%nat -> coeff a i j <> 0 ->
  eliminate (scaled a i (coeff a i j)) i j (i + 1) (m' - (i + 1)) []
    produce_latex = inr (a2, e) ->
  finish_round rec a i j m' produce_latex =
  emit [Yield (Some (scaled a i (coeff a i j)),
               Some [(i, exp_divide (coeff a i j) produce_latex)]);
        Yield (Some a2, Some e)]
       (rec a2 (i + 1)%nat (j + 1)%nat).
Proof.
  intros Ha Hi Hj Hnz.
  destruct (rect_lookup m n a i Ha Hi) as (row & Hrow & Hlen).
  destruct (lookup_lt_is_Some_2 row j) as [d Hd]; [lia|].
  unfold scaled. rewrite (coeff_lookup a i row), Hd, Hrow in * by done.
  simpl in *. intros Helim.
  unfold finish_round. rewrite (normalize_ok a i j row d) by done.
  simpl. unfold lift. rewrite Helim. simpl.
  by destruct (rec a2 (i + 1)%nat (j + 1)%nat) as [[ev r]|].
Qed.

Lemma row_0_width m n a :
  rect m n a -> (0 < m)%nat ->
  exists row_0, a !! 0%nat = Some row_0 /\ length row_0 = n /\ width a = n.
Proof.
  intros Ha Hm. destruct (rect_lookup m n a 0 Ha Hm) as (row_0 & H0 & Hlen).
  exists row_0. unfold width. by rewrite H0.
Qed.

Lemma bind_emit {A B} ev (x : A) (k : A -> Gen B) :
  bind (Some (ev, inr x)) k = emit ev (k x).
Proof. done. Qed.

Lemma gauss_body_boundary rec m n a i j produce_latex :
  rect m n a -> (0 < m)%nat -> i = m \/ j = n ->
  gauss_body rec a i j produce_latex =
  Some (Enter a i j :: initial_frame a i j ++ [Yield sentinel], inr a).
Proof.
  intros Ha Hm Hij. destruct (row_0_width m n a Ha Hm) as (row_0 & H0 & Hlen & _).
  unfold gauss_body, row_at, initial_frame, enter, lift. rewrite H0.
  assert (Nat.eqb i (length a) || Nat.eqb j (length row_0) = true) as Hb.
  { destruct Ha as [Hla _]. apply orb_true_iff.
    destruct Hij; [left|right]; apply Nat.eqb_eq; lia. }
  cbv zeta. rewrite bind_emit.
  destruct (Nat.eqb i j && Nat.eqb j 0); unfold yield at 1, ret at 1;
    rewrite !bind_emit, Hb; done.
Qed.

Lemma gauss_body_inside rec m n a i j produce_latex :
  rect m n a -> (i < m)%nat -> (j < n)%nat ->
  gauss_body rec a i j produce_latex =
  emit (Enter a i j :: initial_frame a i j)
    (bind (if is_zero (coeff a i j) then
             bind (lift (first_nonzero a j (i + 1) (m - (i + 1))))
               (fun found =>
                  match found with
                  | Some r =>
                      bind (lift (swap_rows a i r)) (fun a' =>
                      bind (yield (Some a', Some [(i, exp_swap i r produce_latex)]))
                        (fun _ => ret a'))
                  | None => rec a i (j + 1)%nat
                  end)
           else ret a)
       (fun a => finish_round rec a i j m produce_latex)).
Proof.
  intros Ha Hi Hj. pose proof Ha as [Hla _]. subst m.
  destruct (row_0_width _ n a Ha ltac:(lia)) as (row_0 & H0 & Hlen & _).
  unfold gauss_body, row_at, initial_frame, enter. rewrite H0.
  assert (Nat.eqb i (length a) || Nat.eqb j (length row_0) = false) as Hb.
  { apply orb_false_iff. split; apply Nat.eqb_neq; lia. }
  cbv zeta. rewrite bind_emit.
  destruct (Nat.eqb i j && Nat.eqb j 0); unfold yield at 1, ret at 1, lift at 1;
    rewrite !bind_emit, Hb, (rect_entry (length a) n) by done;
    unfold lift at 1; rewrite bind_emit, !emit_emit; done.
Qed.

Lemma gauss_body_pivot rec m n a i j produce_latex :
  rect m n a -> (i < m)%nat -> (j < n)%nat -> coeff a i j <> 0 ->
  gauss_body rec a i j produce_latex =
  emit (Enter a i j :: initial_frame a i j)
    (finish_round rec a i j m produce_latex).
Proof.
  intros Ha Hi Hj Hnz. rewrite (gauss_body_inside rec m n) by done.
  apply is_zero_false in Hnz. rewrite Hnz.
  unfold ret. by rewrite bind_emit, emit_nil.
Qed.

Lemma gauss_body_swap rec m n a i j produce_latex r row_i row_r :
  rect m n a -> (i < m)%nat -> (j < n)%nat -> coeff a i j = 0 ->
  first_nonzero a j (i + 1) (m - (i + 1)) = inr (Some r) ->
  a !! i = Some row_i -> a !! r = Some row_r ->
  let b := <[i := row_r]> (<[r := row_i]> a) in
  gauss_body rec a i j produce_latex =
  emit (Enter a i j :: initial_frame a i j ++
        [Yield (Some b, Some [(i, exp_swap i r produce_latex)])])
    (finish_round rec b i j m produce_latex).
Proof.
  intros Ha Hi Hj Hz Hfound Hri Hrr b. rewrite (gauss_body_inside rec m n) by done.
  apply is_zero_true in Hz. rewrite Hz, Hfound.
  unfold lift at 1. rewrite bind_emit, emit_nil.
  rewrite (swap_rows_ok a i r row_i row_r) by done. fold b.
  unfold lift, yield, ret. rewrite !bind_emit. simpl.
  destruct (finish_round rec b i j m produce_latex) as [[ev res]|]; [|done].
  simpl. by rewrite <- app_assoc.
Qed.

Lemma gauss_body_skip rec m n a i j produce_latex :
  rect m n a -> (i < m)%nat -> (j < n)%nat -> coeff a i j = 0 ->
  first_nonzero a j (i + 1) (m - (i + 1)) = inr None ->
  gauss_body rec a i j produce_latex =
  emit (Enter a i j :: initial_frame a i j)
    (bind (rec a i (j + 1)%nat)
       (fun a' => finish_round rec a' i j m produce_latex)).
Proof.
  intros Ha Hi Hj Hz Hfound. rewrite (gauss_body_inside rec m n) by done.
  apply is_zero_true in Hz. rewrite Hz, Hfound.
  unfold lift at 1. by rewrite bind_emit, emit_nil.
Qed.


(** ** What a round does to the matrix *)

Lemma same_above_coeff a b i r c :
  same_above a b i -> (r < i)%nat -> coeff a r c = coeff b r c.
Proof. intros Hsame Hr. unfold coeff. by rewrite (Hsame r Hr). Qed.

Lemma selected_spec m n produce_latex a i j sw b :
  rect m n a -> (i < m)%nat -> (j < n)%nat ->
  selected m produce_latex a i j sw b ->
  rect m n b /\ coeff b i j <> 0 /\ same_above a b i /\
  forall c, zero_below a i c -> zero_below b i c.
Proof.
  intros Ha Hi Hj [Hnz|r row_i row_r Hz Hfound Hri Hrr]; [done|].
  pose proof (first_nonzero_spec m n a j (i + 1) (m - (i + 1)) Ha Hj ltac:(lia))
    as Hs.
  rewrite Hfound in Hs. destruct Hs as (Hr & Hnz & _).
  split; [by apply swap_rect|]. split; [|split].
  - rewrite (swap_coeff a i r row_i row_r) by done.
    by rewrite decide_True by done.
  - intros k Hk. rewrite (swap_lookup a i r row_i row_r) by done.
    rewrite !decide_False by lia. done.
  - intros c Hzero k Hk. rewrite (swap_coeff a i r row_i row_r) by done.
    repeat case_decide; apply Hzero; lia.
Qed.

Lemma round_spec m n produce_latex b i j a2 e :
  rect m n b -> (i < m)%nat -> (j < n)%nat -> coeff b i j <> 0 ->
  eliminate (scaled b i (coeff b i j)) i j (i + 1) (m - (i + 1)) []
    produce_latex = inr (a2, e) ->
  rect m n a2 /\ same_above b a2 i /\
  (forall c, coeff a2 i c = coeff b i c / coeff b i j) /\
  (forall r c, (i < r)%nat ->
     coeff a2 r c = coeff b r c - coeff b r j * (coeff b i c / coeff b i j)).
Proof.
  intros Hb Hi Hj Hnz Helim. set (d := coeff b i j) in *.
  destruct (eliminate_spec m n (scaled b i d) i j (i + 1) (m - (i + 1)) []
              produce_latex (scaled_rect m n b i d Hb) ltac:(lia) ltac:(lia) Hj)
    as (a' & e' & Heq & Ha' & Hsame & Hco).
  rewrite Helim in Heq. injection Heq as <- <-.
  split; [done|]. split; [|split].
  - intros r Hr. rewrite <- Hsame by lia. by apply scaled_same_above.
  - intros c. rewrite <- (same_above_coeff _ _ _ i c Hsame) by lia.
    rewrite scaled_coeff. by rewrite decide_True.
  - intros r c Hr. rewrite Hco by lia. rewrite !scaled_coeff.
    rewrite !decide_False by lia. by rewrite decide_True.
Qed.

Lemma Qcdiv_0_l (d : Qc) : 0 / d = 0.
Proof. unfold Qcdiv. ring. Qed.

Lemma Qcdiv_same (d : Qc) : d <> 0 -> d / d = 1.
Proof. intros Hd. field. done. Qed.

(** After a round the pivot is [1] and the pivot column is zero below. *)
Lemma round_pivot_column m n produce_latex b i j a2 e :
  rect m n b -> (i < m)%nat -> (j < n)%nat -> coeff b i j <> 0 ->
  eliminate (scaled b i (coeff b i j)) i j (i + 1) (m - (i + 1)) []
    produce_latex = inr (a2, e) ->
  coeff a2 i j = 1 /\ zero_below a2 (i + 1) j.
Proof.
  intros Hb Hi Hj Hnz Helim.
  destruct (round_spec m n produce_latex b i j a2 e Hb Hi Hj Hnz Helim)
    as (_ & _ & Hrow & Hbelow).
  split.
  - rewrite Hrow. by apply Qcdiv_same.
  - intros r Hr. rewrite Hbelow by lia. rewrite Qcdiv_same by done. ring.
Qed.

(** A round keeps a column zero that is zero from row [i] on. *)
Lemma round_zero_below m n produce_latex b i j a2 e c :
  rect m n b -> (i < m)%nat -> (j < n)%nat -> coeff b i j <> 0 ->
  eliminate (scaled b i (coeff b i j)) i j (i + 1) (m - (i + 1)) []
    produce_latex = inr (a2, e) ->
  zero_below b i c -> zero_below a2 i c.
Proof.
  intros Hb Hi Hj Hnz Helim Hzero.
  destruct (round_spec m n produce_latex b i j a2 e Hb Hi Hj Hnz Helim)
    as (_ & _ & Hrow & Hbelow).
  intros r Hr. destruct (decide (r = i)) as [->|Hne].
  - rewrite Hrow, (Hzero i) by lia. apply Qcdiv_0_l.
  - rewrite Hbelow by lia. rewrite (Hzero r), (Hzero i) by lia.
    rewrite Qcdiv_0_l. ring.
Qed.

(** ** Properties of the runs *)

Lemma run_preserves m n produce_latex a i j ev a' :
  run m n produce_latex a i j ev a' -> rect m n a ->
  rect m n a' /\ same_above a a' i /\
  forall c, zero_below a i c -> zero_below a' i c.
Proof.
  induction 1 as [a i j Hij|a i j ev a' Hi Hj Hz Hfound Hrun IH
                 |a i j sw b a2 e ev a' Hi Hj Hsel Helim Hrun IH]; intros Ha.
  - done.
  - by apply IH.
  - destruct (selected_spec m n produce_latex a i j sw b Ha Hi Hj Hsel)
      as (Hb & Hnz & Hsame_b & Hzero_b).
    destruct (round_spec m n produce_latex b i j a2 e Hb Hi Hj Hnz Helim)
      as (Ha2 & Hsame_2 & _).
    destruct (IH Ha2) as (Ha' & Hsame' & Hzero').
    split; [done|]. split.
    + intros r Hr. rewrite (Hsame_b r), (Hsame_2 r) by lia. apply Hsame'. lia.
    + intros c Hzero.
      assert (zero_below a2 i c) as Hzero2.
      { apply (round_zero_below m n produce_latex b i j a2 e c Hb Hi Hj Hnz Helim).
        by apply Hzero_b. }
      intros r Hr. destruct (decide (r = i)) as [->|Hne].
      * rewrite <- (same_above_coeff a2 a' (i + 1)) by (done || lia).
        by apply Hzero2.
      * apply Hzero'; [|lia]. intros k Hk. apply Hzero2. lia.
Qed.


(** ** [gauss] on a rectangular matrix follows [run] *)

Lemma finish_round_run rec m n produce_latex b i j :
  rect m n b -> (i < m)%nat -> (j < n)%nat -> coeff b i j <> 0 ->
  (forall a2, rect m n a2 ->
     exists ev a', rec a2 (i + 1)%nat (j + 1)%nat = Some (ev, inr a') /\
                   run m n produce_latex a2 (i + 1) (j + 1) ev a') ->
  exists a2 e ev a',
    eliminate (scaled b i (coeff b i j)) i j (i + 1) (m - (i + 1)) []
      produce_latex = inr (a2, e) /\
    run m n produce_latex a2 (i + 1) (j + 1) ev a' /\
    finish_round rec b i j m produce_latex =
    Some (Yield (Some (scaled b i (coeff b i j)),
                 Some [(i, exp_divide (coeff b i j) produce_latex)]) ::
          Yield (Some a2, Some e) :: ev, inr a').
Proof.
  intros Hb Hi Hj Hnz Hrec.
  destruct (eliminate_spec m n (scaled b i (coeff b i j)) i j (i + 1)
              (m - (i + 1)) [] produce_latex
              (scaled_rect m n b i _ Hb) ltac:(lia) ltac:(lia) Hj)
    as (a2 & e & Helim & Ha2 & _).
  destruct (Hrec a2 Ha2) as (ev & a' & Hgo & Hrun).
  exists a2, e, ev, a'. split; [done|]. split; [done|].
  rewrite (finish_round_pivot rec m n b i j m produce_latex a2 e) by done.
  by rewrite Hgo.
Qed.

Lemma gauss_S fuel a i j produce_latex :
  gauss (S fuel) a i j produce_latex =
  gauss_body (fun a i j => gauss fuel a i j produce_latex) a i j produce_latex.
Proof. done. Qed.

Lemma gauss_run m n produce_latex fuel a i j :
  rect m n a -> (0 < m)%nat -> (i <= m)%nat -> (j <= n)%nat ->
  (n - j < fuel)%nat ->
  exists ev a',
    gauss fuel a i j produce_latex = Some (ev, inr a') /\
    run m n produce_latex a i j ev a'.
Proof.
  revert a i j. induction fuel as [|fuel IH]; intros a i j Ha Hm Hi Hj Hfuel;
    [lia|]. rewrite gauss_S.
  set (rec := fun a i j => gauss fuel a i j produce_latex).
  destruct (decide (i = m \/ j = n)) as [Hend|Hin].
  { rewrite (gauss_body_boundary rec m n) by done.
    eexists _, _. split; [done|]. by constructor. }
  assert (i < m)%nat as Hi' by lia. assert (j < n)%nat as Hj' by lia.
  assert (forall a2, rect m n a2 ->
            exists ev a',
              rec a2 (i + 1)%nat (j + 1)%nat = Some (ev, inr a') /\
              run m n produce_latex a2 (i + 1) (j + 1) ev a') as Hrec.
  { intros a2 Ha2. apply IH; (done || lia). }
  destruct (decide (coeff a i j = 0)) as [Hz|Hnz].
  - pose proof (first_nonzero_spec m n a j (i + 1) (m - (i + 1)) Ha Hj'
                  ltac:(lia)) as Hs.
    destruct (first_nonzero a j (i + 1) (m - (i + 1))) as [x|[r|]] eqn:Hfound;
      [done| |].
    + destruct Hs as (Hr & Hnz & _).
      destruct (rect_lookup m n a i Ha Hi') as (row_i & Hri & _).
      destruct (rect_lookup m n a r Ha ltac:(lia)) as (row_r & Hrr & _).
      rewrite (gauss_body_swap rec m n a i j produce_latex r row_i row_r) by done.
      pose proof (selected_swap m produce_latex a i j r row_i row_r
                    Hz Hfound Hri Hrr) as Hsel.
      set (b := <[i := row_r]> (<[r := row_i]> a)) in *.
      destruct (selected_spec m n produce_latex a i j _ b Ha Hi' Hj' Hsel)
        as (Hb & Hnzb & _).
      destruct (finish_round_run rec m n produce_latex b i j Hb Hi' Hj' Hnzb Hrec)
        as (a2 & e & ev & a' & Helim & Hrun & ->).
      eexists _, a'. split; [done|].
      replace ((Enter a i j :: initial_frame a i j ++ _) ++ _) with
        (Enter a i j :: initial_frame a i j ++
         [Yield (Some b, Some [(i, exp_swap i r produce_latex)])] ++
         Yield (Some (scaled b i (coeff b i j)),
                Some [(i, exp_divide (coeff b i j) produce_latex)]) ::
         Yield (Some a2, Some e) :: ev)
        by (simpl; by rewrite <- app_assoc).
      by eapply run_round.
    + rewrite (gauss_body_skip rec m n) by done. unfold rec at 1.
      destruct (IH a i (j + 1)%nat Ha Hm Hi ltac:(lia) ltac:(lia))
        as (ev & a' & -> & Hrun).
      destruct (run_preserves m n produce_latex a i (j + 1) ev a' Hrun Ha)
        as (Ha' & _ & Hzero).
      rewrite bind_emit.
      assert (coeff a' i j = 0) as Hz'.
      { apply Hzero; [|lia]. intros k Hk.
        destruct (decide (k = i)) as [->|]; [done|apply Hs; lia]. }
      rewrite (finish_round_zero rec m n a' i j) by done.
      eexists _, a'. split; [done|]. simpl.
      by apply run_skip.
  - rewrite (gauss_body_pivot rec m n) by done.
    destruct (finish_round_run rec m n produce_latex a i j Ha Hi' Hj' Hnz Hrec)
      as (a2 & e & ev & a' & Helim & Hrun & ->).
    eexists _, a'. split; [done|]. simpl.
    apply (run_round m n produce_latex a i j [] a a2 e ev a'); try done.
    by constructor.
Qed.


(** ** Frames and invocations of a list of events *)

Lemma frames_of_app ev1 ev2 :
  frames_of (ev1 ++ ev2) = frames_of ev1 ++ frames_of ev2.
Proof. apply omap_app. Qed.

Lemma calls_of_app ev1 ev2 :
  calls_of (ev1 ++ ev2) = calls_of ev1 ++ calls_of ev2.
Proof. apply omap_app. Qed.

Lemma calls_of_initial_frame a i j : calls_of (initial_frame a i j) = [].
Proof. unfold initial_frame. by destruct (Nat.eqb i j && Nat.eqb j 0). Qed.

Lemma calls_of_selected m produce_latex a i j sw b :
  selected m produce_latex a i j sw b -> calls_of sw = [].
Proof. by intros []. Qed.

(** The invocations of a run: the one that starts it, then those of the
    recursive call. *)
Lemma run_calls m n produce_latex a i j ev a' :
  run m n produce_latex a i j ev a' ->
  exists rest, calls_of ev = (a, i, j) :: rest /\
    (length rest <= n - j)%nat /\ descent m n ((a, i, j) :: rest).
Proof.
  induction 1 as [a i j Hij|a i j ev a' Hi Hj Hz Hfound Hrun IH
                 |a i j sw b a2 e ev a' Hi Hj Hsel Helim Hrun IH].
  - exists []. change (calls_of (Enter a i j :: ?l)) with ((a, i, j) :: calls_of l).
    rewrite calls_of_app, calls_of_initial_frame. simpl.
    split; [done|]. split; [lia|constructor].
  - destruct IH as (rest & Hcalls & Hlen & Hdesc). exists ((a, i, j + 1)%nat :: rest).
    change (calls_of (Enter a i j :: ?l)) with ((a, i, j) :: calls_of l).
    rewrite !calls_of_app, calls_of_initial_frame, Hcalls. simpl.
    rewrite app_nil_r. split; [done|]. split; [lia|].
    constructor; try done; (lia || by left).
  - destruct IH as (rest & Hcalls & Hlen & Hdesc).
    exists ((a2, i + 1, j + 1)%nat :: rest).
    change (calls_of (Enter a i j :: ?l)) with ((a, i, j) :: calls_of l).
    rewrite !calls_of_app, calls_of_initial_frame.
    rewrite (calls_of_selected _ _ _ _ _ _ _ Hsel). simpl. rewrite Hcalls.
    split; [done|]. split; [lia|].
    constructor; try done; (lia || by right).
Qed.

(** ** Inputs accepted by [check_matrix] *)

Lemma check_matrix_shape a :
  check_matrix a = inr tt ->
  rect (length a) (width a) a /\ (0 < length a)%nat.
Proof.
  intros Hok. apply check_matrix_rect in Hok as (m & n & Hm & Ha).
  destruct (row_0_width m n a Ha Hm) as (_ & _ & _ & ->).
  destruct Ha as [<- Hn]. done.
Qed.

Lemma gauss_run_top produce_latex fuel a :
  check_matrix a = inr tt -> (width a < fuel)%nat ->
  exists ev a',
    gauss fuel a 0 0 produce_latex = Some (ev, inr a') /\
    run (length a) (width a) produce_latex a 0 0 ev a'.
Proof.
  intros Hok Hfuel. destruct (check_matrix_shape a Hok) as [Ha Hm].
  apply gauss_run; (done || lia).
Qed.


(** ** The shape of the trace *)

Lemma skipped_enter a i j ev :
  skipped (Enter a i j :: ev) =
  ((if skips a i j then 1 else 0) + skipped ev)%nat.
Proof.
  unfold skipped. change (calls_of (Enter a i j :: ev)) with ((a, i, j) :: calls_of ev).
  rewrite filter_cons. simpl. destruct (skips a i j); by case_decide.
Qed.

Lemma skipped_app ev1 ev2 : skipped (ev1 ++ ev2) = (skipped ev1 + skipped ev2)%nat.
Proof. unfold skipped. by rewrite calls_of_app, filter_app, length_app. Qed.

Lemma skipped_no_calls ev : calls_of ev = [] -> skipped ev = 0%nat.
Proof. unfold skipped. by intros ->. Qed.

Lemma skips_boundary m n a i j :
  rect m n a -> (0 < m)%nat -> i = m \/ j = n -> skips a i j = false.
Proof.
  intros Ha Hm Hij. destruct (row_0_width m n a Ha Hm) as (_ & _ & _ & Hw).
  destruct Ha as [Hla _]. unfold skips. rewrite Hw, Hla.
  destruct Hij as [->| ->].
  - by rewrite (bool_decide_eq_false_2 (m < m)%nat) by lia.
  - rewrite (bool_decide_eq_false_2 (n < n)%nat) by lia.
    by rewrite andb_false_r.
Qed.

Lemma skips_skip m n a i j :
  rect m n a -> (i < m)%nat -> (j < n)%nat -> coeff a i j = 0 ->
  first_nonzero a j (i + 1) (m - (i + 1)) = inr None -> skips a i j = true.
Proof.
  intros Ha Hi Hj Hz Hfound.
  destruct (row_0_width m n a Ha ltac:(lia)) as (_ & _ & _ & Hw).
  destruct Ha as [Hla _]. unfold skips. rewrite Hw, Hla, Hfound.
  rewrite !bool_decide_eq_true_2 by done. apply is_zero_true in Hz.
  by rewrite Hz.
Qed.

Lemma skips_selected m n produce_latex a i j sw b :
  rect m n a -> selected m produce_latex a i j sw b -> skips a i j = false.
Proof.
  intros [Hla _] [Hnz|r row_i row_r Hz Hfound Hri Hrr]; unfold skips.
  - apply is_zero_false in Hnz. rewrite Hnz. by rewrite andb_false_r.
  - rewrite Hla, Hfound. by rewrite andb_false_r.
Qed.

Lemma frames_of_initial_frame a i j :
  Forall (fun f : Frame => f.1 <> None) (frames_of (initial_frame a i j)).
Proof.
  unfold initial_frame. destruct (Nat.eqb i j && Nat.eqb j 0); simpl;
    repeat constructor; done.
Qed.

Lemma frames_of_selected m produce_latex a i j sw b :
  selected m produce_latex a i j sw b ->
  Forall (fun f : Frame => f.1 <> None) (frames_of sw).
Proof. intros []; simpl; repeat constructor; done. Qed.

(** The frames of a run: frames with a matrix, then the sentinel, then one
    frame with the final matrix and an empty explanation for every
    invocation that skipped its column. *)
Lemma run_frames m n produce_latex a i j ev a' :
  run m n produce_latex a i j ev a' -> rect m n a -> (0 < m)%nat ->
  exists pre,
    frames_of ev =
      pre ++ sentinel :: replicate (skipped ev) (Some a', Some []) /\
    Forall (fun f : Frame => f.1 <> None) pre.
Proof.
  induction 1 as [a i j Hij|a i j ev a' Hi Hj Hz Hfound Hrun IH
                 |a i j sw b a2 e ev a' Hi Hj Hsel Helim Hrun IH];
    intros Ha Hm; rewrite skipped_enter;
    change (frames_of (Enter a i j :: ?l)) with (frames_of l).
  - exists (frames_of (initial_frame a i j)).
    rewrite (skips_boundary m n) by done.
    rewrite skipped_app, frames_of_app.
    rewrite !skipped_no_calls by (done || apply calls_of_initial_frame).
    split; [done|apply frames_of_initial_frame].
  - destruct (IH Ha Hm) as (pre & Hfr & Hpre).
    exists (frames_of (initial_frame a i j) ++ pre).
    rewrite (skips_skip m n) by done.
    rewrite !skipped_app, !frames_of_app, Hfr.
    rewrite (skipped_no_calls (initial_frame a i j))
      by apply calls_of_initial_frame.
    change (skipped [Yield ?f]) with 0%nat.
    split; [|apply Forall_app; split; [apply frames_of_initial_frame|done]].
    replace (1 + (0 + (skipped ev + 0)))%nat with (S (skipped ev)) by lia.
    rewrite replicate_S_end. by rewrite <- !app_assoc.
  - destruct (selected_spec m n produce_latex a i j sw b Ha Hi Hj Hsel)
      as (Hb & Hnz & _).
    destruct (round_spec m n produce_latex b i j a2 e Hb Hi Hj Hnz Helim)
      as (Ha2 & _).
    destruct (IH Ha2 Hm) as (pre & Hfr & Hpre).
    exists (frames_of (initial_frame a i j) ++ frames_of sw ++
            (Some (scaled b i (coeff b i j)),
             Some [(i, exp_divide (coeff b i j) produce_latex)]) ::
            (Some a2, Some e) :: pre).
    rewrite (skips_selected m n produce_latex a i j sw b) by done.
    rewrite !skipped_app, !frames_of_app.
    rewrite (skipped_no_calls (initial_frame a i j))
      by apply calls_of_initial_frame.
    rewrite (skipped_no_calls sw) by (by eapply calls_of_selected).
    change (skipped (Yield ?f :: Yield ?g :: ev)) with (skipped ev).
    change (frames_of (Yield ?f :: Yield ?g :: ev)) with (f :: g :: frames_of ev).
    rewrite Hfr. split.
    + simpl. by rewrite <- !app_assoc.
    + apply Forall_app. split; [apply frames_of_initial_frame|].
      apply Forall_app. split; [by eapply frames_of_selected|].
      repeat constructor; done.
Qed.

Lemma first_nonzero_first m n a j i r :
  rect m n a -> (j < n)%nat -> (i < r < m)%nat -> coeff a r j <> 0 ->
  (forall k, (i < k < r)%nat -> coeff a k j = 0) ->
  first_nonzero a j (i + 1) (m - (i + 1)) = inr (Some r).
Proof.
  intros Ha Hj Hr Hnz Hzero.
  pose proof (first_nonzero_spec m n a j (i + 1) (m - (i + 1)) Ha Hj ltac:(lia))
    as Hs.
  destruct (first_nonzero a j (i + 1) (m - (i + 1))) as [x|[r'|]]; [done| |].
  - destruct Hs as (Hr' & Hnz' & Hzero'). do 2 f_equal.
    destruct (decide (r' < r)%nat) as [Hlt|Hge].
    + exfalso. apply Hnz', Hzero. lia.
    + destruct (decide (r < r')%nat) as [Hlt|Hge']; [|lia].
      exfalso. apply Hnz, Hzero'. lia.
  - exfalso. apply Hnz, Hs. lia.
Qed.

(** ** The zero block *)

Lemma zero_block_below a i j :
  zero_block a i j <-> forall c, (c < j)%nat -> zero_below a i c.
Proof.
  split.
  - intros Hblock c Hc r Hr. by apply Hblock.
  - intros Hbelow r c Hr Hc. by apply (Hbelow c).
Qed.

Lemma swap_zero_block (a : Matrix) i j r row_i row_r :
  (i <= r)%nat -> a !! i = Some row_i -> a !! r = Some row_r ->
  zero_block a i j -> zero_block (<[i := row_r]> (<[r := row_i]> a)) i j.
Proof.
  intros Hr Hri Hrr Hblock k c Hk Hc.
  rewrite (swap_coeff a i r row_i row_r) by done.
  repeat case_decide; apply Hblock; lia.
Qed.

Lemma scaled_zero_block a i j d :
  zero_block a i j -> zero_block (scaled a i d) i j.
Proof.
  intros Hblock r c Hr Hc. rewrite scaled_coeff. case_decide.
  - rewrite Hblock by lia. apply Qcdiv_0_l.
  - by apply Hblock.
Qed.

Lemma eliminate_zero_block m n a i j j' e produce_latex a2 e2 :
  rect m n a -> (i < m)%nat -> (j' < n)%nat ->
  eliminate a i j' (i + 1) (m - (i + 1)) e produce_latex = inr (a2, e2) ->
  zero_block a i j -> zero_block a2 i j.
Proof.
  intros Ha Hi Hj' Helim Hblock.
  destruct (eliminate_spec m n a i j' (i + 1) (m - (i + 1)) e produce_latex
              Ha ltac:(lia) ltac:(lia) Hj') as (a' & e' & Heq & _ & Hsame & Hco).
  rewrite Helim in Heq. injection Heq as <- <-.
  intros r c Hr Hc. destruct (decide (r = i)) as [->|Hne].
  - rewrite <- (same_above_coeff a a2 (i + 1)) by (done || lia).
    by apply Hblock.
  - rewrite Hco by lia. rewrite (Hblock r c), (Hblock i c) by lia. ring.
Qed.

(** Every invocation of a run that starts on a zero block is entered on a
    zero block. *)
Lemma run_zero_block m n produce_latex a i j ev a' :
  run m n produce_latex a i j ev a' -> rect m n a -> zero_block a i j ->
  Forall (fun c => zero_block c.1.1 c.1.2 c.2) (calls_of ev).
Proof.
  induction 1 as [a i j Hij|a i j ev a' Hi Hj Hz Hfound Hrun IH
                 |a i j sw b a2 e ev a' Hi Hj Hsel Helim Hrun IH];
    intros Ha Hblock;
    change (calls_of (Enter a i j :: ?l)) with ((a, i, j) :: calls_of l);
    rewrite ?calls_of_app, calls_of_initial_frame; simpl;
    constructor; try done.
  - rewrite app_nil_r. apply IH; [done|].
    pose proof (first_nonzero_spec m n a j (i + 1) (m - (i + 1)) Ha Hj
                  ltac:(lia)) as Hs. rewrite Hfound in Hs.
    intros r c Hr Hc. destruct (decide (c = j)) as [->|Hne].
    + destruct (decide (r = i)) as [->|Hri]; [done|]. apply Hs. lia.
    + apply Hblock; lia.
  - rewrite (calls_of_selected _ _ _ _ _ _ _ Hsel). simpl.
    destruct (selected_spec m n produce_latex a i j sw b Ha Hi Hj Hsel)
      as (Hb & Hnz & _ & Hzero_b).
    destruct (round_spec m n produce_latex b i j a2 e Hb Hi Hj Hnz Helim)
      as (Ha2 & _).
    apply IH; [done|]. intros r c Hr Hc.
    destruct (decide (c = j)) as [->|Hne].
    + by apply (round_pivot_column m n produce_latex b i j a2 e).
    + apply (round_zero_below m n produce_latex b i j a2 e c); try done; [|lia].
      apply Hzero_b. apply zero_block_below with (j := j); [done|lia].
Qed.

(** ** The closed form of the elimination loop *)

Lemma dict_set_fresh k v (e : Explanations) :
  Forall (fun key => key <> k) (keys e) -> dict_set k v e = e ++ [(k, v)].
Proof.
  induction e as [|[k' v'] e IH]; simpl; [done|].
  intros Hfresh. apply Forall_cons in Hfresh as [Hne Hfresh].
  rewrite (proj2 (Nat.eqb_neq k k')) by done. by rewrite IH.
Qed.

Lemma eliminate_closed m n produce_latex i j cnt :
  forall (a : Matrix) k e,
    rect m n a -> (i < k)%nat -> (k + cnt = m)%nat -> (j < n)%nat ->
    Forall (fun key => (key < k)%nat) (keys e) ->
    exists a2,
      eliminate a i j k cnt e produce_latex =
        inr (a2, e ++ map (fun r => (r, exp_minus (coeff a r j) i produce_latex))
                        (seq k cnt)) /\
      (forall r, (r < k)%nat -> a2 !! r = a !! r) /\
      (forall r row_r row_i,
         (k <= r)%nat -> a !! r = Some row_r -> a !! i = Some row_i ->
         a2 !! r = Some (sub_row (coeff a r j) row_r row_i)).
Proof.
  induction cnt as [|cnt IH]; intros a k e Ha Hik Hk Hj Hkeys; simpl.
  - exists a. rewrite app_nil_r. split; [done|]. split; [done|].
    intros r row_r row_i Hr Hrow. apply lookup_lt_Some in Hrow.
    destruct Ha. lia.
  - destruct (rect_lookup m n a k Ha ltac:(lia)) as (row_k & Hrk & Hlk).
    destruct (rect_lookup m n a i Ha ltac:(lia)) as (row_i & Hri & Hli).
    rewrite (rect_entry m n) by (done || lia). unfold row_at, rbind.
    rewrite Hrk, Hri.
    rewrite bool_decide_eq_true_2 by (destruct Ha; lia).
    set (a1 := <[k := sub_row (coeff a k j) row_k row_i]> a).
    assert (rect m n a1) as Ha1.
    { apply rect_insert; [done|]. rewrite sub_row_length; lia. }
    rewrite dict_set_fresh
      by (eapply Forall_impl; [exact Hkeys|]; intros key Hkey; simpl in *; lia).
    destruct (IH a1 (S k)
                (e ++ [(k, exp_minus (coeff a k j) i produce_latex)])
                Ha1 ltac:(lia) ltac:(lia) Hj) as (a2 & Heq & Hbefore & Hafter).
    { unfold keys. rewrite map_app. apply Forall_app. split.
      - eapply Forall_impl; [exact Hkeys|]. intros key Hkey. simpl in *. lia.
      - constructor; [simpl; lia|constructor]. }
    exists a2. split; [|split].
    + rewrite Heq. do 2 f_equal. rewrite <- app_assoc. simpl. do 2 f_equal.
      apply map_ext_in. intros r Hr. apply in_seq in Hr.
      unfold a1. by rewrite coeff_insert_ne by lia.
    + intros r Hr. rewrite Hbefore by lia. unfold a1.
      by rewrite list_lookup_insert_ne by lia.
    + intros r row_r row_i' Hr Hrow Hrow_i. injection Hrow_i as <-.
      destruct (decide (r = k)) as [->|Hne].
      * rewrite Hbefore by lia. unfold a1.
        rewrite list_lookup_insert_eq by (destruct Ha; lia).
        rewrite Hrk in Hrow. by injection Hrow as <-.
      * rewrite (Hafter r row_r row_i); try done; try lia.
        -- unfold a1. by rewrite coeff_insert_ne by lia.
        -- unfold a1. by rewrite list_lookup_insert_ne by lia.
        -- unfold a1. by rewrite list_lookup_insert_ne by lia.
Qed.

(** ** The final matrix and the run on it *)

Lemma first_nonzero_zero_below m n a i j :
  rect m n a -> (i < m)%nat -> (j < n)%nat -> coeff a i j = 0 ->
  first_nonzero a j (i + 1) (m - (i + 1)) = inr None -> zero_below a i j.
Proof.
  intros Ha Hi Hj Hz Hfound.
  pose proof (first_nonzero_spec m n a j (i + 1) (m - (i + 1)) Ha Hj
                ltac:(lia)) as Hs. rewrite Hfound in Hs.
  intros r Hr. destruct (decide (r = i)) as [->|Hne]; [done|]. apply Hs. lia.
Qed.

Lemma run_reduced m n produce_latex a i j ev a' :
  run m n produce_latex a i j ev a' -> rect m n a -> reduced m n a' i j.
Proof.
  induction 1 as [a i j Hij|a i j ev a' Hi Hj Hz Hfound Hrun IH
                 |a i j sw b a2 e ev a' Hi Hj Hsel Helim Hrun IH]; intros Ha.
  - by apply reduced_end.
  - apply reduced_skip; try done; [|by apply IH].
    destruct (run_preserves m n produce_latex a i (j + 1) ev a' Hrun Ha)
      as (_ & _ & Hzero).
    by apply Hzero, (first_nonzero_zero_below m n).
  - destruct (selected_spec m n produce_latex a i j sw b Ha Hi Hj Hsel)
      as (Hb & Hnz & _).
    destruct (round_spec m n produce_latex b i j a2 e Hb Hi Hj Hnz Helim)
      as (Ha2 & _).
    destruct (round_pivot_column m n produce_latex b i j a2 e Hb Hi Hj Hnz Helim)
      as (Hone & Hbelow).
    destruct (run_preserves m n produce_latex a2 (i + 1) (j + 1) ev a' Hrun Ha2)
      as (_ & Hsame & Hzero).
    apply reduced_pivot; try done; [|by apply Hzero|by apply IH].
    by rewrite <- (same_above_coeff a2 a' (i + 1)) by (done || lia).
Qed.

Lemma Qc_1_neq_0 : (1 : Qc) <> 0.
Proof. done. Qed.

Lemma Forall_initial_frame (P : Frame -> Prop) a i j :
  P (Some a, None) -> Forall P (frames_of (initial_frame a i j)).
Proof.
  intros HP. unfold initial_frame.
  destruct (Nat.eqb i j && Nat.eqb j 0); simpl; [|constructor].
  constructor; [done|constructor].
Qed.

Lemma reduced_run m n produce_latex a i j ev a' :
  run m n produce_latex a i j ev a' -> rect m n a -> reduced m n a i j ->
  a' = a /\
  Forall (fun f : Frame => f.1 = Some a \/ f = sentinel) (frames_of ev).
Proof.
  induction 1 as [a i j Hij|a i j ev a' Hi Hj Hz Hfound Hrun IH
                 |a i j sw b a2 e ev a' Hi Hj Hsel Helim Hrun IH];
    intros Ha Hred;
    change (frames_of (Enter a i j :: ?l)) with (frames_of l);
    rewrite ?frames_of_app.
  - split; [done|]. apply Forall_app. split.
    + apply Forall_initial_frame. by left.
    + constructor; [by right|constructor].
  - assert (reduced m n a i (j + 1)) as Hred'.
    { inversion Hred as [? ? Hij|? ? _ _ _ Hnext|? ? _ _ Hone _ _]; subst;
        [lia|done|]. rewrite Hz in Hone. by destruct Qc_1_neq_0. }
    destruct (IH Ha Hred') as (-> & Hfr). split; [done|].
    apply Forall_app. split.
    + apply Forall_initial_frame. by left.
    + apply Forall_app. split; [done|]. constructor; [by left|constructor].
  - assert (coeff a i j = 1 /\ zero_below a (i + 1) j /\
            reduced m n a (i + 1) (j + 1) /\ sw = [] /\ b = a)
      as (Hone & Hbelow & Hred' & -> & ->).
    { destruct Hsel as [Hnz|r row_i row_r Hz Hfound Hri Hrr].
      - inversion Hred as [? ? Hij|? ? _ _ Hzero _|? ? _ _ Hone Hbelow Hnext];
          subst; [lia| |done]. destruct Hnz. by apply Hzero.
      - exfalso.
        pose proof (first_nonzero_spec m n a j (i + 1) (m - (i + 1)) Ha Hj
                      ltac:(lia)) as Hs. rewrite Hfound in Hs.
        destruct Hs as (Hr & Hnz & _).
        inversion Hred as [? ? Hij|? ? _ _ Hzero _|? ? _ _ Hone Hbelow Hnext];
          subst; [lia| |].
        + apply Hnz, Hzero. lia.
        + rewrite Hz in Hone. by destruct Qc_1_neq_0. }
    rewrite Hone, scaled_one in *.
    destruct (eliminate_id m n a i j (i + 1) (m - (i + 1)) [] produce_latex
                Ha ltac:(lia) ltac:(lia) Hj Hbelow) as (e' & Heq).
    rewrite Helim in Heq. injection Heq as -> ->.
    destruct (IH Ha Hred') as (-> & Hfr). split; [done|].
    apply Forall_app. split.
    + apply Forall_initial_frame. by left.
    + simpl. constructor; [by left|]. constructor; [by left|done].
Qed.

Lemma run_first_frame m n produce_latex a ev a' :
  run m n produce_latex a 0 0 ev a' ->
  frames_of ev !! 0%nat = Some (Some a, None).
Proof. inversion 1; subst; done. Qed.

(** The run on a matrix in the form [reduced]: what its frames explain
    and which branches its invocations take. *)
Lemma reduced_run_frames m n produce_latex a i j ev a' :
  run m n produce_latex a i j ev a' -> rect m n a -> reduced m n a i j ->
  Forall (unchanged_frame m a produce_latex) (frames_of ev) /\
  Forall (no_swap m n a) (calls_of ev).
Proof.
  induction 1 as [a i j Hij|a i j ev a' Hi Hj Hz Hfound Hrun IH
                 |a i j sw b a2 e ev a' Hi Hj Hsel Helim Hrun IH];
    intros Ha Hred;
    change (frames_of (Enter a i j :: ?l)) with (frames_of l);
    change (calls_of (Enter a i j :: ?l)) with ((a, i, j) :: calls_of l);
    rewrite ?frames_of_app, ?calls_of_app, ?calls_of_initial_frame.
  - split.
    + apply Forall_app. split; [apply Forall_initial_frame; by left|].
      constructor; [right; by left|constructor].
    + constructor; [|constructor]. split; [done|]. simpl. lia.
  - assert (reduced m n a i (j + 1)) as Hred'.
    { inversion Hred as [? ? Hij|? ? _ _ _ Hnext|? ? _ _ Hone _ _]; subst;
        [lia|done|]. rewrite Hz in Hone. by destruct Qc_1_neq_0. }
    destruct (reduced_run _ _ _ _ _ _ _ _ Hrun Ha Hred') as (-> & _).
    destruct (IH Ha Hred') as (Hfr & Hcalls). split.
    + apply Forall_app. split; [apply Forall_initial_frame; by left|].
      apply Forall_app. split; [done|].
      constructor; [right; right; by left|constructor].
    + simpl. rewrite app_nil_r. constructor; [|done].
      split; [done|]. simpl. intros _ _. by right.
  - assert (coeff a i j = 1 /\ zero_below a (i + 1) j /\
            reduced m n a (i + 1) (j + 1) /\ sw = [] /\ b = a)
      as (Hone & Hbelow & Hred' & -> & ->).
    { destruct Hsel as [Hnz|r row_i row_r Hz Hfound Hri Hrr].
      - inversion Hred as [? ? Hij|? ? _ _ Hzero _|? ? _ _ Hone Hbelow Hnext];
          subst; [lia| |done]. destruct Hnz. by apply Hzero.
      - exfalso.
        pose proof (first_nonzero_spec m n a j (i + 1) (m - (i + 1)) Ha Hj
                      ltac:(lia)) as Hs. rewrite Hfound in Hs.
        destruct Hs as (Hr & Hnz & _).
        inversion Hred as [? ? Hij|? ? _ _ Hzero _|? ? _ _ Hone Hbelow Hnext];
          subst; [lia| |].
        + apply Hnz, Hzero. lia.
        + rewrite Hz in Hone. by destruct Qc_1_neq_0. }
    rewrite Hone, scaled_one in *.
    destruct (eliminate_closed m n produce_latex i j (m - (i + 1)) a (i + 1) []
                Ha ltac:(lia) ltac:(lia) Hj ltac:(constructor))
      as (a2' & Hclosed & _).
    destruct (eliminate_id m n a i j (i + 1) (m - (i + 1)) [] produce_latex
                Ha ltac:(lia) ltac:(lia) Hj Hbelow) as (e' & Heq).
    rewrite Helim in Heq. injection Heq as -> <-.
    rewrite Helim in Hclosed. injection Hclosed as _ He.
    assert (e = map (fun k => (k, exp_minus 0 i produce_latex))
                  (seq (i + 1) (m - (i + 1)))) as ->.
    { rewrite He. simpl. apply map_ext_in. intros k Hk. apply in_seq in Hk.
      by rewrite (Hbelow k) by lia. }
    destruct (IH Ha Hred') as (Hfr & Hcalls). split.
    + apply Forall_app. split; [apply Forall_initial_frame; by left|].
      simpl. constructor; [do 3 right; left; by exists i|].
      constructor; [do 4 right; by exists i|done].
    + simpl. constructor; [|done]. split; [done|]. simpl. intros _ _. by left.
Qed.

(** ** The formatting flag *)

Lemma same_run_refl {A} (g : Gen A) : same_run eq g g.
Proof. by destruct g as [[ev [e|x]]|]. Qed.

Lemma same_run_bind {A B} (R : A -> A -> Prop) (R' : B -> B -> Prop)
    (g1 g2 : Gen A) (k1 k2 : A -> Gen B) :
  same_run R g1 g2 ->
  (forall x1 x2, R x1 x2 -> same_run R' (k1 x1) (k2 x2)) ->
  same_run R' (bind g1 k1) (bind g2 k2).
Proof.
  intros Hg Hk.
  destruct g1 as [[ev1 [e1|x1]]|], g2 as [[ev2 [e2|x2]]|]; simpl in *;
    try done; try (by destruct Hg).
  destruct Hg as [Hev HR]. specialize (Hk x1 x2 HR).
  destruct (k1 x1) as [[ev1' r1]|], (k2 x2) as [[ev2' r2]|]; simpl in *;
    try done.
  destruct Hk as [Hev' Hr]. split; [|done]. by rewrite !map_app, Hev, Hev'.
Qed.

Lemma same_run_try {A} (R : A -> A -> Prop) (g1 g2 : Gen A) (h1 h2 : Gen unit) :
  same_run R g1 g2 -> same_run eq h1 h2 ->
  same_run (option_Forall2 R) (try_zero_div g1 h1) (try_zero_div g2 h2).
Proof.
  intros Hg Hh.
  destruct g1 as [[ev1 [e1|x1]]|], g2 as [[ev2 [e2|x2]]|]; simpl in *;
    try done; try (by destruct Hg).
  - destruct Hg as [Hev <-]. destruct e1; try done.
    destruct h1 as [[ev1' [e1'|[]]]|], h2 as [[ev2' [e2'|[]]]|]; simpl in *;
      try done; try (by destruct Hh);
      destruct Hh as [Hev' Hr]; (split; [by rewrite !map_app, Hev, Hev'|]);
      [done|constructor].
  - destruct Hg as [Hev HR]. split; [done|]. by constructor.
Qed.

Lemma keys_dict_set k v1 v2 (e1 e2 : Explanations) :
  keys e1 = keys e2 -> keys (dict_set k v1 e1) = keys (dict_set k v2 e2).
Proof.
  revert e2. induction e1 as [|[k1 t1] e1 IH]; intros [|[k2 t2] e2] Hkeys;
    simpl in *; try done.
  injection Hkeys as -> Hkeys. destruct (Nat.eqb k k2); simpl; f_equal;
    [done|by apply IH].
Qed.

Lemma eliminate_flag a i j k cnt (e1 e2 : Explanations) l1 l2 :
  keys e1 = keys e2 ->
  match eliminate a i j k cnt e1 l1, eliminate a i j k cnt e2 l2 with
  | inl x1, inl x2 => x1 = x2
  | inr (a1, e1'), inr (a2, e2') => a1 = a2 /\ keys e1' = keys e2'
  | _, _ => False
  end.
Proof.
  revert a k e1 e2. induction cnt as [|cnt IH]; intros a k e1 e2 Hkeys; simpl;
    [done|].
  destruct (entry a k j) as [x|factor]; simpl; [done|].
  destruct (row_at a k) as [x|row_k]; simpl; [done|].
  destruct (row_at a i) as [x|row_i]; simpl; [done|].
  case_bool_decide; [|done]. apply IH. by apply keys_dict_set.
Qed.

Lemma normalize_flag a i j l1 l2 :
  same_run eq (normalize a i j l1) (normalize a i j l2).
Proof.
  unfold normalize.
  apply (same_run_bind eq); [apply same_run_refl|intros divisor ? <-].
  apply (same_run_bind eq); [apply same_run_refl|intros row_i ? <-].
  apply (same_run_bind eq); [apply same_run_refl|intros row' ? <-].
  apply (same_run_bind eq); [apply same_run_refl|intros a' ? <-].
  apply (same_run_bind eq); [done|intros _ _ _]. apply same_run_refl.
Qed.

Lemma finish_round_flag rec1 rec2 a i j m l1 l2 :
  (forall a i j, same_run eq (rec1 a i j) (rec2 a i j)) ->
  same_run eq (finish_round rec1 a i j m l1) (finish_round rec2 a i j m l2).
Proof.
  intros Hrec. unfold finish_round.
  eapply same_run_bind.
  { apply (same_run_try eq); [apply normalize_flag|done]. }
  intros normalized ? [a1 ? <-|]; [|apply same_run_refl].
  apply (same_run_bind (fun r1 r2 => r1.1 = r2.1 /\ keys r1.2 = keys r2.2)).
  - unfold lift. simpl. split; [done|].
    pose proof (eliminate_flag a1 i j (i + 1) (m - (i + 1)) [] [] l1 l2 eq_refl)
      as Helim.
    destruct (eliminate a1 i j _ _ _ l1) as [y1|[a2 e2]],
             (eliminate a1 i j _ _ _ l2) as [y2|[a2' e2']]; done.
  - intros [a2 e2] [a2' e2'] [Ha He]. simpl in Ha, He. subst a2'.
    cbv beta iota.
    apply (same_run_bind eq); [|intros _ _ _; apply Hrec].
    simpl. split; [|done]. unfold erase_frame. simpl. by rewrite He.
Qed.

Lemma gauss_body_flag rec1 rec2 a i j l1 l2 :
  (forall a i j, same_run eq (rec1 a i j) (rec2 a i j)) ->
  same_run eq (gauss_body rec1 a i j l1) (gauss_body rec2 a i j l2).
Proof.
  intros Hrec. unfold gauss_body.
  apply (same_run_bind eq); [apply same_run_refl|intros _ _ _].
  apply (same_run_bind eq); [apply same_run_refl|intros _ _ _]. cbv zeta.
  apply (same_run_bind eq); [apply same_run_refl|intros row_0 ? <-].
  destruct (Nat.eqb i (length a) || Nat.eqb j (length row_0));
    [apply same_run_refl|].
  apply (same_run_bind eq); [apply same_run_refl|intros pivot ? <-].
  apply (same_run_bind eq); [|intros b ? <-; by apply finish_round_flag].
  destruct (is_zero pivot); [|apply same_run_refl].
  apply (same_run_bind eq); [apply same_run_refl|intros [r|] ? <-];
    [|apply Hrec].
  apply (same_run_bind eq); [apply same_run_refl|intros a' ? <-].
  apply (same_run_bind eq); [done|intros _ _ _]. apply same_run_refl.
Qed.

Lemma gauss_flag fuel a i j l1 l2 :
  same_run eq (gauss fuel a i j l1) (gauss fuel a i j l2).
Proof.
  revert a i j. induction fuel as [|fuel IH]; intros a i j; [done|].
  rewrite !gauss_S. by apply gauss_body_flag.
Qed.

Lemma erase_frames_of ev1 ev2 :
  map erase_event ev1 = map erase_event ev2 ->
  map erase_frame (frames_of ev1) = map erase_frame (frames_of ev2).
Proof.
  assert (forall ev, map erase_frame (frames_of ev) =
            omap (fun x => match x with inl f => Some f | inr _ => None end)
              (map erase_event ev)) as Hframes.
  { induction ev as [|[f|b i j] ev IH]; [done| |done].
    change (frames_of (Yield f :: ev)) with (f :: frames_of ev).
    simpl. by rewrite IH. }
  intros Heq. by rewrite !Hframes, Heq.
Qed.

(** * The claims *)

(** C8. For every rectangular matrix with at least one row, [gauss]
    terminates: with fuel beyond the width it runs to its end and yields a
    finite list of frames.  Every recursive invocation is entered one
    column further, on the same row or the next, within the bounds of the
    matrix, so there are at most [width a + 1] invocations. *)
Theorem gauss_terminates (a : Matrix) (produce_latex : bool) (fuel : nat) :
  check_matrix a = inr tt -> (width a < fuel)%nat ->
  exists ev a',
    gauss fuel a 0 0 produce_latex = Some (ev, inr a') /\
    (length (calls_of ev) <= width a + 1)%nat /\
    descent (length a) (width a) (calls_of ev).
Proof.
  intros Hok Hfuel.
  destruct (gauss_run_top produce_latex fuel a Hok Hfuel) as (ev & a' & Hgo & Hrun).
  exists ev, a'. split; [done|].
  destruct (run_calls _ _ _ _ _ _ _ _ Hrun) as (rest & -> & Hlen & Hdesc).
  split; [simpl; lia|done].
Qed.

(** C5. On every matrix that [check_matrix] accepts, [gauss] ends by
    returning, never by an exception.  Where the pivot that the [try]
    block divides by is zero, the division raises [ZeroDivisionError];
    the handler turns it into one frame with the matrix and an empty
    explanation, and the invocation returns without a recursive call. *)
Theorem gauss_never_raises (a : Matrix) (produce_latex : bool) (fuel : nat) :
  check_matrix a = inr tt -> (width a < fuel)%nat ->
  (exists ev a', gauss fuel a 0 0 produce_latex = Some (ev, inr a')) /\
  (forall rec b i j,
     rect (length a) (width a) b ->
     (i < length a)%nat -> (j < width a)%nat -> coeff b i j = 0 ->
     normalize b i j produce_latex = Some ([], inl ZeroDivisionError) /\
     finish_round rec b i j (length a) produce_latex =
       Some ([Yield (Some b, Some [])], inr b)).
Proof.
  intros Hok Hfuel. split.
  - destruct (gauss_run_top produce_latex fuel a Hok Hfuel) as (ev & a' & Hgo & _).
    by exists ev, a'.
  - intros rec b i j Hb Hi Hj Hz. split.
    + destruct (rect_lookup _ _ b i Hb Hi) as (row & Hrow & Hlen).
      destruct (lookup_lt_is_Some_2 row j) as [x Hx]; [lia|].
      rewrite (coeff_lookup b i row), Hx in Hz by done. simpl in Hz. subst x.
      by apply (normalize_zero b i j row).
    + by apply (finish_round_zero rec (length a) (width a)).
Qed.


(** C3 (amended). On every matrix that [check_matrix] accepts the trace
    holds the sentinel frame exactly once: the frames before it all carry
    a matrix, and the frames after it, one for every invocation that
    skipped an all-zero column, carry the final matrix and an empty
    explanation.  The sentinel is the last frame when no column was
    skipped. *)
Theorem gauss_trace_sentinel (a : Matrix) (produce_latex : bool) (fuel : nat) :
  check_matrix a = inr tt -> (width a < fuel)%nat ->
  exists ev a' pre,
    gauss fuel a 0 0 produce_latex = Some (ev, inr a') /\
    frames_of ev =
      pre ++ sentinel :: replicate (skipped ev) (Some a', Some []) /\
    Forall (fun f : Frame => f.1 <> None) pre /\
    (skipped ev = 0%nat -> last (frames_of ev) = Some sentinel).
Proof.
  intros Hok Hfuel. destruct (check_matrix_shape a Hok) as [Ha Hm].
  destruct (gauss_run_top produce_latex fuel a Hok Hfuel) as (ev & a' & Hgo & Hrun).
  destruct (run_frames _ _ _ _ _ _ _ _ Hrun Ha Hm) as (pre & Hfr & Hpre).
  exists ev, a', pre. split; [done|]. split; [done|]. split; [done|].
  intros Hk. rewrite Hfr, Hk. simpl. apply last_snoc.
Qed.

(** C2 (amended). When the pivot [a[i][j]] is zero and no row below has a
    non-zero entry in column [j], [gauss] recurses with the same [i] and
    [j + 1] and forwards the frames of that recursion; the invocation then
    falls through to the normalization, whose division by the pivot, still
    zero, raises [ZeroDivisionError]; the zero-divisor branch yields one
    frame with the matrix and an empty explanation, and the invocation
    returns without elimination and without a further recursive call. *)
Theorem gauss_skips_zero_column (m n : nat) (a : Matrix) (i j : nat)
    (produce_latex : bool) (fuel : nat) :
  rect m n a -> (i < m)%nat -> (j < n)%nat -> coeff a i j = 0 ->
  (forall r, (i < r < m)%nat -> coeff a r j = 0) ->
  (n - j <= fuel)%nat ->
  exists ev a',
    gauss fuel a i (j + 1) produce_latex = Some (ev, inr a') /\
    normalize a' i j produce_latex = Some ([], inl ZeroDivisionError) /\
    gauss (S fuel) a i j produce_latex =
      Some (Enter a i j :: initial_frame a i j ++ ev ++
            [Yield (Some a', Some [])], inr a').
Proof.
  intros Ha Hi Hj Hz Hbelow Hfuel.
  assert (zero_below a i j) as Hzero.
  { intros r Hr. destruct (decide (r = i)) as [->|Hne]; [done|].
    destruct (decide (r < m)%nat); [apply Hbelow; lia|].
    apply coeff_outside. destruct Ha. lia. }
  destruct (gauss_run m n produce_latex fuel a i (j + 1) Ha ltac:(lia) ltac:(lia)
              ltac:(lia) ltac:(lia)) as (ev & a' & Hgo & Hrun).
  destruct (run_preserves m n produce_latex a i (j + 1) ev a' Hrun Ha)
    as (Ha' & _ & Hzero').
  assert (coeff a' i j = 0) as Hz' by (by apply Hzero').
  exists ev, a'. split; [done|]. split.
  - destruct (rect_lookup m n a' i Ha' Hi) as (row & Hrow & Hlen).
    destruct (lookup_lt_is_Some_2 row j) as [x Hx]; [lia|].
    rewrite (coeff_lookup a' i row), Hx in Hz' by done. simpl in Hz'. subst x.
    by apply (normalize_zero a' i j row).
  - rewrite gauss_S.
    rewrite (gauss_body_skip _ m n) by
      (try done; apply (first_nonzero_none m n); try done; try lia;
       intros r Hr; apply Hzero; lia).
    rewrite Hgo, bind_emit.
    by rewrite (finish_round_zero _ m n a' i j).
Qed.

(** C6. When the pivot [a[i][j]] is zero and [r] is the first row below
    row [i] with a non-zero entry in column [j], [gauss] swaps the rows
    [i] and [r]: the next frame carries the matrix with the contents of
    these two rows exchanged and the other rows unchanged, and its
    explanation is the one entry [{i: exp_swap(i, r)}].  For the input
    rows "0;1;5" and "1;1;8" the first frame is the input matrix and the
    second has the rows 0 and 1 swapped, explained by [exp_swap(0, 1)]. *)
Theorem gauss_swaps_first_nonzero (produce_latex : bool) :
  (forall m n (a : Matrix) i j r row_i row_r fuel,
     rect m n a -> (j < n)%nat -> coeff a i j = 0 ->
     (i < r < m)%nat -> coeff a r j <> 0 ->
     (forall k, (i < k < r)%nat -> coeff a k j = 0) ->
     a !! i = Some row_i -> a !! r = Some row_r -> (n - j < fuel)%nat ->
     exists b ev a',
       first_nonzero a j (i + 1) (m - (i + 1)) = inr (Some r) /\
       swap_rows a i r = inr b /\
       b !! i = Some row_r /\ b !! r = Some row_i /\
       (forall k, k <> i -> k <> r -> b !! k = a !! k) /\
       gauss fuel a i j produce_latex =
         Some (Enter a i j :: initial_frame a i j ++
               Yield (Some b, Some [(i, exp_swap i r produce_latex)]) :: ev,
               inr a')) /\
  (exists ev a',
     gauss 4 rows_swap 0 0 produce_latex = Some (ev, inr a') /\
     frames_of ev !! 0%nat = Some (Some rows_swap, None) /\
     frames_of ev !! 1%nat =
       Some (Some (of_ints [[1; 1; 8]; [0; 1; 5]]%Z),
             Some [(0%nat, exp_swap 0 1 produce_latex)])).
Proof.
  assert (forall m n (a : Matrix) i j r row_i row_r fuel,
     rect m n a -> (j < n)%nat -> coeff a i j = 0 ->
     (i < r < m)%nat -> coeff a r j <> 0 ->
     (forall k, (i < k < r)%nat -> coeff a k j = 0) ->
     a !! i = Some row_i -> a !! r = Some row_r -> (n - j < fuel)%nat ->
     exists b ev a',
       first_nonzero a j (i + 1) (m - (i + 1)) = inr (Some r) /\
       swap_rows a i r = inr b /\
       b !! i = Some row_r /\ b !! r = Some row_i /\
       (forall k, k <> i -> k <> r -> b !! k = a !! k) /\
       gauss fuel a i j produce_latex =
         Some (Enter a i j :: initial_frame a i j ++
               Yield (Some b, Some [(i, exp_swap i r produce_latex)]) :: ev,
               inr a')) as Hgeneral.
  { intros m n a i j r row_i row_r fuel Ha Hj Hz Hr Hnz Hzero Hri Hrr Hfuel.
    pose proof (first_nonzero_first m n a j i r Ha Hj Hr Hnz Hzero) as Hfound.
    set (b := <[i := row_r]> (<[r := row_i]> a)).
    pose proof (selected_swap m produce_latex a i j r row_i row_r
                  Hz Hfound Hri Hrr) as Hsel. fold b in Hsel.
    destruct (selected_spec m n produce_latex a i j _ b Ha ltac:(lia) Hj Hsel)
      as (Hb & Hnzb & _).
    destruct fuel as [|fuel]; [lia|].
    destruct (finish_round_run (fun a i j => gauss fuel a i j produce_latex)
                m n produce_latex b i j Hb ltac:(lia) Hj Hnzb)
      as (a2 & e & ev & a' & Helim & Hrun & Hfin).
    { intros a2 Ha2. apply gauss_run; (done || lia). }
    eexists b, _, a'. split; [done|]. split; [by apply swap_rows_ok|].
    split; [|split; [|split]].
    - unfold b. rewrite (swap_lookup a i r row_i row_r) by done.
      by rewrite decide_True.
    - unfold b. rewrite (swap_lookup a i r row_i row_r) by done.
      rewrite decide_False by lia. by rewrite decide_True.
    - intros k Hki Hkr. unfold b.
      rewrite (swap_lookup a i r row_i row_r) by done.
      by rewrite !decide_False.
    - rewrite gauss_S.
      rewrite (gauss_body_swap _ m n a i j produce_latex r row_i row_r)
        by (done || lia).
      fold b. rewrite Hfin. simpl. by rewrite <- app_assoc. }
  split; [done|].
  destruct (Hgeneral 2%nat 3%nat rows_swap 0%nat 0%nat 1%nat
              (map fraction [0; 1; 5]%Z) (map fraction [1; 1; 8]%Z) 4%nat)
    as (b & ev & a' & _ & Hswap & _ & _ & _ & Hgo);
    try done; try lia.
  - split; [done|]. repeat constructor.
  - injection Hswap as <-. eexists _, a'. split; [exact Hgo|]. done.
Qed.


(** C10. In a run [gauss(a, 0, 0)] on a matrix that [check_matrix]
    accepts, every invocation [gauss(a, i, j)] is entered with
    [a[r][c] == 0] for all rows [r >= i] and columns [c < j]; and each
    operation of a round keeps this block zero: the swap of row [i] with a
    row below, the division of row [i], and the subtraction of multiples
    of row [i] from the rows below. *)
Theorem gauss_zero_block (a : Matrix) (produce_latex : bool) (fuel : nat) :
  check_matrix a = inr tt -> (width a < fuel)%nat ->
  (exists ev a',
     gauss fuel a 0 0 produce_latex = Some (ev, inr a') /\
     Forall (fun c => zero_block c.1.1 c.1.2 c.2) (calls_of ev)) /\
  (forall (b : Matrix) i j,
     rect (length a) (width a) b -> zero_block b i j ->
     (forall r row_i row_r,
        (i <= r)%nat -> b !! i = Some row_i -> b !! r = Some row_r ->
        swap_rows b i r = inr (<[i := row_r]> (<[r := row_i]> b)) /\
        zero_block (<[i := row_r]> (<[r := row_i]> b)) i j) /\
     (forall d, zero_block (scaled b i d) i j) /\
     (forall j' e b2 e2,
        (i < length a)%nat -> (j' < width a)%nat ->
        eliminate b i j' (i + 1) (length a - (i + 1)) e produce_latex =
          inr (b2, e2) ->
        zero_block b2 i j)).
Proof.
  intros Hok Hfuel. destruct (check_matrix_shape a Hok) as [Ha Hm]. split.
  - destruct (gauss_run_top produce_latex fuel a Hok Hfuel)
      as (ev & a' & Hgo & Hrun).
    exists ev, a'. split; [done|].
    apply (run_zero_block _ _ _ _ _ _ _ _ Hrun Ha). intros r c _ Hc. lia.
  - intros b i j Hb Hblock. split; [|split].
    + intros r row_i row_r Hr Hri Hrr.
      split; [by apply swap_rows_ok|by apply swap_zero_block].
    + intros d. by apply scaled_zero_block.
    + intros j' e b2 e2 Hi Hj' Helim.
      by apply (eliminate_zero_block (length a) (width a) b i j j' e
                  produce_latex b2 e2).
Qed.


(** C7 (amended). Running [gauss] again on the matrix that a completed
    run left changes nothing: it leaves that matrix, and every frame of
    its trace carries that same matrix, except the sentinel.  No swap is
    triggered: every invocation inside the matrix finds its pivot equal
    to 1, or finds it zero with no row to swap below.  The trace is not a
    single frame: it opens with the frame of the matrix without an
    explanation and holds the sentinel, and every other frame is the
    frame of a division by 1, of an elimination whose factors are all 0,
    or of a skipped column (empty explanation). *)
Theorem gauss_rerun_fixed (a : Matrix) (produce_latex : bool) (fuel : nat) :
  check_matrix a = inr tt -> (width a < fuel)%nat ->
  exists ev final ev2,
    gauss fuel a 0 0 produce_latex = Some (ev, inr final) /\
    gauss fuel final 0 0 produce_latex = Some (ev2, inr final) /\
    Forall (fun f : Frame => f.1 = Some final \/ f = sentinel)
      (frames_of ev2) /\
    frames_of ev2 !! 0%nat = Some (Some final, None) /\
    sentinel ∈ frames_of ev2 /\
    Forall (unchanged_frame (length a) final produce_latex) (frames_of ev2) /\
    Forall (no_swap (length a) (width a) final) (calls_of ev2).
Proof.
  intros Hok Hfuel. destruct (check_matrix_shape a Hok) as [Ha Hm].
  destruct (gauss_run_top produce_latex fuel a Hok Hfuel)
    as (ev & final & Hgo & Hrun).
  destruct (run_preserves _ _ _ _ _ _ _ _ Hrun Ha) as (Hfinal & _).
  pose proof (run_reduced _ _ _ _ _ _ _ _ Hrun Ha) as Hred.
  destruct (gauss_run (length a) (width a) produce_latex fuel final 0 0
              Hfinal Hm ltac:(lia) ltac:(lia) ltac:(lia))
    as (ev2 & final2 & Hgo2 & Hrun2).
  destruct (reduced_run _ _ _ _ _ _ _ _ Hrun2 Hfinal Hred) as (-> & Hfr).
  destruct (reduced_run_frames _ _ _ _ _ _ _ _ Hrun2 Hfinal Hred)
    as (Hforms & Hcalls).
  exists ev, final, ev2. split; [done|]. split; [done|]. split; [done|].
  split; [by eapply run_first_frame|]. split; [|done].
  destruct (run_frames _ _ _ _ _ _ _ _ Hrun2 Hfinal Hm) as (pre & -> & _).
  apply elem_of_app. right. by left.
Qed.


(** C9. The flag [produce_latex] changes the texts of the explanations
    only: for every matrix and every position, the run with
    [produce_latex=True] and the run with [produce_latex=False] yield the
    same matrices in the same order, with the same keys in the
    explanation of every frame, and end in the same way with the same
    matrix. *)
Theorem gauss_flag_text_only (fuel : nat) (a : Matrix) (i j : nat) :
  erase_run (gauss fuel a i j true) = erase_run (gauss fuel a i j false).
Proof.
  pose proof (gauss_flag fuel a i j true false) as Hsame.
  destruct (gauss fuel a i j true) as [[ev1 r1]|],
           (gauss fuel a i j false) as [[ev2 r2]|]; simpl in *; try done.
  destruct Hsame as [Hev Hr]. rewrite (erase_frames_of ev1 ev2 Hev).
  destruct r1, r2; try done; by subst.
Qed.


Lemma Qc_this_neq (x y : Qc) : this x <> this y -> x <> y.
Proof. intros Hne ->. by apply Hne. Qed.

(** C1. The run on the input rows "1;1;3" and "2;-1;0", a system with the
    unique solution x=1, y=2: the matrix of the final frame that carries
    one is [[1,1,3],[0,1,2]], not the reduced form [[1,0,1],[0,1,2]].
    Column 1 is the pivot column of row 1, and row 0 keeps the entry 1
    there: [gauss] only eliminates below the pivot. *)
Theorem gauss_unique_final (produce_latex : bool) :
  check_matrix rows_unique = inr tt /\
  exists ev final,
    gauss 4 rows_unique 0 0 produce_latex = Some (ev, inr final) /\
    final_matrix (frames_of ev) = Some final /\
    rationals final = [[1; 1; 3]; [0; 1; 2]]%Q /\
    rationals final <> [[1; 0; 1]; [0; 1; 2]]%Q /\
    coeff final 1 1 <> 0 /\ coeff final 0 1 <> 0.
Proof.
  split; [done|].
  destruct produce_latex; eexists _, _;
    (split; [vm_compute; reflexivity|]);
    (split; [vm_compute; reflexivity|]);
    (split; [vm_compute; reflexivity|]);
    (split; [by vm_compute|]);
    split; apply Qc_this_neq; by vm_compute.
Qed.

(** C4. The run on the input rows "1;1;3" and "2;-1;0": the second
    invocation has the pivot position (1, 1); after its elimination step,
    whose frame is the fifth of the trace, row 0 still has the entry 1 in
    the pivot column 1, although 0 is not the pivot row. *)
Theorem gauss_unique_round (produce_latex : bool) :
  exists ev final b after,
    gauss 4 rows_unique 0 0 produce_latex = Some (ev, inr final) /\
    calls_of ev !! 1%nat = Some (b, 1%nat, 1%nat) /\
    eliminate (scaled b 1 (coeff b 1 1)) 1 1 (1 + 1) (2 - (1 + 1)) []
      produce_latex = inr (after, []) /\
    frames_of ev !! 4%nat = Some (Some after, Some []) /\
    rationals after = [[1; 1; 3]; [0; 1; 2]]%Q /\
    coeff after 0 1 <> 0.
Proof.
  destruct produce_latex; eexists _, _, _, _;
    (split; [vm_compute; reflexivity|]);
    (split; [vm_compute; reflexivity|]);
    (split; [vm_compute; reflexivity|]);
    (split; [vm_compute; reflexivity|]);
    (split; [vm_compute; reflexivity|]);
    apply Qc_this_neq; by vm_compute.
Qed.


(** * Further properties of [gauss.py] *)

(** ** [check_matrix] *)

(** X1. [check_matrix] raises [IndexError] exactly on the matrix without
    rows, returns exactly when there is a row and all rows have the length
    of the first, and raises [ValueError] exactly when some row has
    another length than the first. *)
Theorem check_matrix_outcomes (matrix : Matrix) :
  (check_matrix matrix = inl IndexError <-> matrix = []) /\
  (check_matrix matrix = inr tt <->
   matrix <> [] /\ Forall (fun row => length row = width matrix) matrix) /\
  (check_matrix matrix = inl ValueError <->
   Exists (fun row => length row <> width matrix) matrix).
Proof.
  destruct matrix as [|row_0 rest].
  { split; [done|]. split; [split; [done|by intros [? _]]|].
    split; [done|]. intros Hex. by apply Exists_nil in Hex. }
  unfold check_matrix, width, row_at, rbind. simpl.
  set (ok := fun row : list Qc => Nat.eqb (length row) (length row_0)).
  assert (forallb ok (row_0 :: rest) = true <->
          Forall (fun row => length row = length row_0) (row_0 :: rest))
    as Hall.
  { rewrite forallb_forall, Forall_forall. unfold ok.
    split; intros Hin row Hrow; [apply Nat.eqb_eq|apply Nat.eqb_eq];
      apply Hin; by apply list_elem_of_In. }
  change (Nat.eqb (length row_0) (length row_0) && forallb ok rest)
    with (forallb ok (row_0 :: rest)).
  destruct (forallb ok (row_0 :: rest)).
  - pose proof (proj1 Hall eq_refl) as Hok.
    split; [done|]. split; [done|]. split; [done|].
    intros Hex. apply Exists_exists in Hex as (row & Hin & Hne).
    rewrite Forall_forall in Hok. by destruct Hne; apply Hok.
  - split; [done|]. split.
    + split; [done|]. intros [_ Hforall]. by apply Hall in Hforall.
    + split; [|done]. intros _. apply not_Forall_Exists; [apply _|].
      intros Hforall. by apply Hall in Hforall.
Qed.

(** ** Invariants of the frames *)

(** A property of matrices that the swap, the division and the
    elimination keep holds of every frame and of the final matrix. *)
Lemma run_frames_invariant m n produce_latex (P : Matrix -> Prop) i0 :
  (forall (a : Matrix) i r row_i row_r,
     rect m n a -> (i0 <= i < r)%nat -> P a ->
     a !! i = Some row_i -> a !! r = Some row_r ->
     P (<[i := row_r]> (<[r := row_i]> a))) ->
  (forall a i d, rect m n a -> (i0 <= i < m)%nat -> d <> 0 -> P a ->
     P (scaled a i d)) ->
  (forall a i j a2 e, rect m n a -> (i0 <= i < m)%nat -> (j < n)%nat -> P a ->
     eliminate a i j (i + 1) (m - (i + 1)) [] produce_latex = inr (a2, e) ->
     P a2) ->
  forall a i j ev a',
    run m n produce_latex a i j ev a' -> rect m n a -> (i0 <= i)%nat -> P a ->
    P a' /\ Forall (fun f : Frame => forall b, f.1 = Some b -> P b) (frames_of ev).
Proof.
  intros Hswap Hscale Helim.
  induction 1 as [a i j Hij|a i j ev a' Hi Hj Hz Hfound Hrun IH
                 |a i j sw b a2 e ev a' Hi Hj Hsel Hel Hrun IH];
    intros Ha Hi0 HP;
    change (frames_of (Enter a i j :: ?l)) with (frames_of l);
    rewrite ?frames_of_app.
  - split; [done|]. apply Forall_app. split.
    + apply Forall_initial_frame. by intros ? [= <-].
    + constructor; [done|constructor].
  - destruct (IH Ha Hi0 HP) as [HP' Hfr]. split; [done|].
    apply Forall_app. split; [apply Forall_initial_frame; by intros ? [= <-]|].
    apply Forall_app. split; [done|].
    constructor; [by intros ? [= <-]|constructor].
  - destruct (selected_spec m n produce_latex a i j sw b Ha Hi Hj Hsel)
      as (Hb & Hnz & _).
    destruct (round_spec m n produce_latex b i j a2 e Hb Hi Hj Hnz Hel)
      as (Ha2 & _).
    assert (P b /\ Forall (fun f : Frame => forall b, f.1 = Some b -> P b)
                     (frames_of sw)) as [HPb Hsw].
    { destruct Hsel as [_|r row_i row_r Hz Hfound Hri Hrr];
        [split; [done|constructor]|].
      pose proof (first_nonzero_spec m n a j (i + 1) (m - (i + 1)) Ha Hj
                    ltac:(lia)) as Hs. rewrite Hfound in Hs.
      assert (P (<[i := row_r]> (<[r := row_i]> a))) as HPb
        by (apply Hswap; (done || lia)).
      split; [done|]. constructor; [by intros ? [= <-]|constructor]. }
    assert (P (scaled b i (coeff b i j))) as HP1 by (apply Hscale; (done || lia)).
    assert (P a2) as HP2.
    { apply (Helim (scaled b i (coeff b i j)) i j a2 e); try done; try lia.
      by apply scaled_rect. }
    destruct (IH Ha2 ltac:(lia) HP2) as [HP' Hfr]. split; [done|].
    apply Forall_app. split; [apply Forall_initial_frame; by intros ? [= <-]|].
    apply Forall_app. split; [done|].
    constructor; [by intros ? [= <-]|]. constructor; [by intros ? [= <-]|done].
Qed.

(** X2. On a matrix that [check_matrix] accepts, every frame that carries
    a matrix carries one of the shape of the input, and so is the matrix
    that the run leaves; none of them is empty. *)
Theorem gauss_keeps_shape (a : Matrix) (produce_latex : bool) (fuel : nat) :
  check_matrix a = inr tt -> (width a < fuel)%nat ->
  exists ev final,
    gauss fuel a 0 0 produce_latex = Some (ev, inr final) /\
    rect (length a) (width a) final /\
    Forall (fun f : Frame =>
              forall b, f.1 = Some b -> rect (length a) (width a) b /\ b <> [])
      (frames_of ev).
Proof.
  intros Hok Hfuel. destruct (check_matrix_shape a Hok) as [Ha Hm].
  destruct (gauss_run_top produce_latex fuel a Hok Hfuel)
    as (ev & final & Hgo & Hrun).
  exists ev, final. split; [done|].
  destruct (fun H1 H2 H3 =>
              run_frames_invariant (length a) (width a) produce_latex
                (rect (length a) (width a)) 0 H1 H2 H3 a 0 0 ev final Hrun Ha
                (Nat.le_refl 0) Ha) as [Hfinal Hfr].
  - intros b i r row_i row_r Hb _ _ Hri Hrr. by apply swap_rect.
  - intros b i d Hb _ _ _. by apply scaled_rect.
  - intros b i j a2 e Hb Hi Hj _ Helim.
    destruct (eliminate_spec (length a) (width a) b i j (i + 1)
                (length a - (i + 1)) [] produce_latex Hb ltac:(lia) ltac:(lia) Hj)
      as (a2' & e' & Heq & Ha2 & _).
    rewrite Helim in Heq. by injection Heq as <- <-.
  - split; [done|]. eapply Forall_impl; [exact Hfr|].
    intros f Hf b Hb. split; [by apply Hf|].
    intros ->. destruct (Hf [] Hb) as [Hlen _]. simpl in Hlen. lia.
Qed.

(** X3. On a matrix that [check_matrix] accepts, the run leaves a matrix
    in echelon form: along the positions it passes from (0, 0) on, each
    column is either zero from the pivot row down, or has the pivot 1
    with zeros below it. *)
Theorem gauss_final_echelon (a : Matrix) (produce_latex : bool) (fuel : nat) :
  check_matrix a = inr tt -> (width a < fuel)%nat ->
  exists ev final,
    gauss fuel a 0 0 produce_latex = Some (ev, inr final) /\
    reduced (length a) (width a) final 0 0.
Proof.
  intros Hok Hfuel. destruct (check_matrix_shape a Hok) as [Ha Hm].
  destruct (gauss_run_top produce_latex fuel a Hok Hfuel)
    as (ev & final & Hgo & Hrun).
  exists ev, final. split; [done|]. by apply (run_reduced _ _ _ _ _ _ _ _ Hrun).
Qed.


(** ** The solutions of the system *)

Lemma dot_scaled (row v : list Qc) d :
  dot (map (fun x => x / d) row) v = dot row v / d.
Proof.
  revert v. induction row as [|x row IH]; intros [|y v]; simpl;
    try (unfold Qcdiv; ring).
  rewrite IH. unfold Qcdiv. ring.
Qed.

Lemma dot_sub_row f (row_k row_i v : list Qc) :
  length row_k = length row_i ->
  dot (sub_row f row_k row_i) v = dot row_k v - f * dot row_i v.
Proof.
  revert row_i v. induction row_k as [|x row_k IH]; intros [|z row_i] [|y v] Hlen;
    simpl in *; try done; try ring.
  rewrite IH by lia. ring.
Qed.

Lemma solves_insert (a : Matrix) k row_k row' x :
  a !! k = Some row_k ->
  (solves a x -> dot row' (x ++ [-(1)]) = 0) ->
  (solves (<[k := row']> a) x -> dot row_k (x ++ [-(1)]) = 0) ->
  solves a x <-> solves (<[k := row']> a) x.
Proof.
  intros Hk Hto Hfrom. pose proof (lookup_lt_Some _ _ _ Hk) as Hlt. split.
  - intros Hs r row Hr. destruct (decide (r = k)) as [->|Hne].
    + rewrite list_lookup_insert_eq in Hr by done. injection Hr as <-.
      by apply Hto.
    + rewrite list_lookup_insert_ne in Hr by done. by apply (Hs r).
  - intros Hs r row Hr. destruct (decide (r = k)) as [->|Hne].
    + rewrite Hk in Hr. injection Hr as <-. by apply Hfrom.
    + apply (Hs r). by rewrite list_lookup_insert_ne.
Qed.

Lemma swap_solves (a : Matrix) i r row_i row_r x :
  a !! i = Some row_i -> a !! r = Some row_r ->
  solves a x <-> solves (<[i := row_r]> (<[r := row_i]> a)) x.
Proof.
  intros Hi Hr. split.
  - intros Hs k row. rewrite (swap_lookup a i r row_i row_r) by done.
    repeat case_decide; intros Hk; [injection Hk as <-..|]; eauto.
  - intros Hs k row Hk.
    destruct (decide (k = i)) as [->|Hki].
    + apply (Hs r). rewrite (swap_lookup a i r row_i row_r) by done.
      rewrite Hi in Hk. injection Hk as <-.
      case_decide; [by subst; rewrite Hi in Hr|by rewrite decide_True].
    + destruct (decide (k = r)) as [->|Hkr].
      * apply (Hs i). rewrite (swap_lookup a i r row_i row_r) by done.
        rewrite Hr in Hk. injection Hk as <-. by rewrite decide_True.
      * apply (Hs k). rewrite (swap_lookup a i r row_i row_r) by done.
        by rewrite !decide_False.
Qed.

Lemma scaled_solves a i d x :
  d <> 0 -> solves a x <-> solves (scaled a i d) x.
Proof.
  intros Hd. unfold scaled. destruct (a !! i) as [row|] eqn:Hi; [|done].
  apply (solves_insert a i row); [done| |].
  - intros Hs. rewrite dot_scaled, (Hs i row Hi). apply Qcdiv_0_l.
  - intros Hs. pose proof (lookup_lt_Some _ _ _ Hi) as Hlt.
    specialize (Hs i _ (list_lookup_insert_eq _ _ _ Hlt)).
    rewrite dot_scaled in Hs.
    replace (dot row (x ++ [-(1)])) with (dot row (x ++ [-(1)]) / d * d)
      by (field; done).
    rewrite Hs. ring.
Qed.

Lemma eliminate_solves m n a i j k cnt e produce_latex a2 e2 x :
  rect m n a -> (i < k)%nat -> (k + cnt = m)%nat -> (j < n)%nat ->
  eliminate a i j k cnt e produce_latex = inr (a2, e2) ->
  solves a x <-> solves a2 x.
Proof.
  intros Ha Hik Hk Hj. revert a k e Ha Hik Hk.
  induction cnt as [|cnt IH]; intros a k e Ha Hik Hk; simpl.
  - by intros [= <- <-].
  - destruct (rect_lookup m n a k Ha ltac:(lia)) as (row_k & Hrk & Hlk).
    destruct (rect_lookup m n a i Ha ltac:(lia)) as (row_i & Hri & Hli).
    rewrite (rect_entry m n) by (done || lia). unfold row_at, rbind.
    rewrite Hrk, Hri.
    rewrite bool_decide_eq_true_2 by (destruct Ha; lia).
    set (a1 := <[k := sub_row (coeff a k j) row_k row_i]> a).
    assert (rect m n a1) as Ha1.
    { apply rect_insert; [done|]. rewrite sub_row_length; lia. }
    intros Helim.
    pose proof (IH a1 (S k) _ Ha1 ltac:(lia) ltac:(lia) Helim) as HIH.
    etrans; [|exact HIH].
    apply (solves_insert a k row_k); [done| |].
    + intros Hs. rewrite dot_sub_row by lia.
      rewrite (Hs k row_k Hrk), (Hs i row_i Hri). ring.
    + intros Hs. pose proof (lookup_lt_Some _ _ _ Hrk) as Hlt.
      pose proof (Hs k _ (list_lookup_insert_eq _ _ _ Hlt)) as Hnew.
      rewrite dot_sub_row in Hnew by lia.
      assert (dot row_i (x ++ [-(1)]) = 0) as Hrow_i.
      { apply (Hs i). unfold a1. by rewrite list_lookup_insert_ne by lia. }
      rewrite Hrow_i in Hnew. rewrite <- Hnew. ring.
Qed.

(** X4. On a matrix that [check_matrix] accepts, [gauss] never changes
    the solutions of the system: a vector solves the system of the input
    matrix exactly when it solves the system of the final matrix, and of
    the matrix of every frame. *)
Theorem gauss_keeps_solutions (a : Matrix) (produce_latex : bool) (fuel : nat) :
  check_matrix a = inr tt -> (width a < fuel)%nat ->
  exists ev final,
    gauss fuel a 0 0 produce_latex = Some (ev, inr final) /\
    (forall x, solves a x <-> solves final x) /\
    Forall (fun f : Frame =>
              forall b, f.1 = Some b -> forall x, solves a x <-> solves b x)
      (frames_of ev).
Proof.
  intros Hok Hfuel. destruct (check_matrix_shape a Hok) as [Ha Hm].
  destruct (gauss_run_top produce_latex fuel a Hok Hfuel)
    as (ev & final & Hgo & Hrun).
  exists ev, final. split; [done|].
  apply (fun H1 H2 H3 =>
           run_frames_invariant (length a) (width a) produce_latex
             (fun b => forall x, solves a x <-> solves b x) 0 H1 H2 H3
             a 0 0 ev final Hrun Ha (Nat.le_refl 0)); [| | |done].
  - intros b i r row_i row_r Hb _ Hsame Hri Hrr x.
    etrans; [apply Hsame|]. by apply swap_solves.
  - intros b i d Hb _ Hd Hsame x.
    etrans; [apply Hsame|]. by apply scaled_solves.
  - intros b i j a2 e Hb Hi Hj Hsame Helim x.
    etrans; [apply Hsame|].
    apply (eliminate_solves (length a) (width a) b i j (i + 1)
             (length a - (i + 1)) [] produce_latex a2 e); (done || lia).
Qed.


(** ** Rows and explanations *)

(** X5. An invocation [gauss(a, i, j)] on a rectangular matrix never
    changes the rows above row [i]: they are the same in the matrix it
    leaves and in every frame it yields. *)
Theorem gauss_keeps_rows_above (m n : nat) (a : Matrix) (i j : nat)
    (produce_latex : bool) (fuel : nat) :
  rect m n a -> (0 < m)%nat -> (i <= m)%nat -> (j <= n)%nat ->
  (n - j < fuel)%nat ->
  exists ev final,
    gauss fuel a i j produce_latex = Some (ev, inr final) /\
    (forall r, (r < i)%nat -> final !! r = a !! r) /\
    Forall (fun f : Frame =>
              forall b, f.1 = Some b ->
                forall r, (r < i)%nat -> b !! r = a !! r)
      (frames_of ev).
Proof.
  intros Ha Hm Hi Hj Hfuel.
  destruct (gauss_run m n produce_latex fuel a i j Ha Hm Hi Hj Hfuel)
    as (ev & final & Hgo & Hrun).
  exists ev, final. split; [done|].
  apply (fun H1 H2 H3 =>
           run_frames_invariant m n produce_latex
             (fun b => forall r, (r < i)%nat -> b !! r = a !! r) i H1 H2 H3
             a i j ev final Hrun Ha (Nat.le_refl i)); [| | |done].
  - intros b i' r row_i row_r Hb Hir Hsame Hri Hrr k Hk.
    rewrite (swap_lookup b i' r row_i row_r) by done.
    rewrite !decide_False by lia. by apply Hsame.
  - intros b i' d Hb Hi' _ Hsame k Hk.
    rewrite <- (scaled_same_above b i' d k) by lia. by apply Hsame.
  - intros b i' j' a2 e Hb Hi' Hj' Hsame Helim k Hk.
    destruct (eliminate_spec m n b i' j' (i' + 1) (m - (i' + 1)) []
                produce_latex Hb ltac:(lia) ltac:(lia) Hj')
      as (a2' & e' & Heq & _ & Habove & _).
    rewrite Helim in Heq. injection Heq as <- <-.
    rewrite <- (Habove k) by lia. by apply Hsame.
Qed.

(** X6. The elimination loop of a round at position [(i, j)], on a
    rectangular matrix: it leaves the rows up to row [i] as they are,
    replaces every row [k] below by [row_k - a[k][j] * row_i], and
    records for the rows [i+1 .. m-1], in this order, the explanation
    [exp_minus(a[k][j], i)] with the entry of the row before the step. *)
Theorem eliminate_result (m n : nat) (a : Matrix) (i j : nat)
    (produce_latex : bool) :
  rect m n a -> (i < m)%nat -> (j < n)%nat ->
  exists a2,
    eliminate a i j (i + 1) (m - (i + 1)) [] produce_latex =
      inr (a2, map (fun k => (k, exp_minus (coeff a k j) i produce_latex))
                 (seq (i + 1) (m - (i + 1)))) /\
    rect m n a2 /\
    (forall r, (r <= i)%nat -> a2 !! r = a !! r) /\
    (forall k row_k row_i,
       (i < k)%nat -> a !! k = Some row_k -> a !! i = Some row_i ->
       a2 !! k = Some (sub_row (coeff a k j) row_k row_i)).
Proof.
  intros Ha Hi Hj.
  destruct (eliminate_closed m n produce_latex i j (m - (i + 1)) a (i + 1) []
              Ha ltac:(lia) ltac:(lia) Hj ltac:(constructor))
    as (a2 & Heq & Hbefore & Hafter).
  exists a2. split; [done|]. split; [|split].
  - destruct (eliminate_spec m n a i j (i + 1) (m - (i + 1)) [] produce_latex
                Ha ltac:(lia) ltac:(lia) Hj) as (a2' & e' & Heq' & Ha2 & _).
    rewrite Heq in Heq'. by injection Heq' as <- _.
  - intros r Hr. apply Hbefore. lia.
  - intros k row_k row_i Hk. apply Hafter. lia.
Qed.

Lemma run_explained m n produce_latex a i j ev a' :
  run m n produce_latex a i j ev a' -> (0 < j)%nat ->
  Forall (fun f : Frame => f.2 <> None) (frames_of ev).
Proof.
  induction 1 as [a i j Hij|a i j ev a' Hi Hj Hz Hfound Hrun IH
                 |a i j sw b a2 e ev a' Hi Hj Hsel Hel Hrun IH];
    intros Hpos;
    change (frames_of (Enter a i j :: ?l)) with (frames_of l);
    unfold initial_frame;
    rewrite (proj2 (Nat.eqb_neq j 0)), andb_false_r by lia; simpl.
  - constructor; [done|constructor].
  - rewrite frames_of_app. apply Forall_app. split; [apply IH; lia|].
    constructor; [done|constructor].
  - rewrite frames_of_app. apply Forall_app. split.
    + destruct Hsel; simpl; [constructor|].
      constructor; [done|constructor].
    + simpl. constructor; [done|]. constructor; [done|]. apply IH. lia.
Qed.

(** X7. On a matrix that [check_matrix] accepts, the trace opens with the
    frame of the input matrix without explanation, and this is the only
    frame without explanation: every later frame has an explanation
    dictionary. *)
Theorem gauss_initial_frame_once (a : Matrix) (produce_latex : bool)
    (fuel : nat) :
  check_matrix a = inr tt -> (width a < fuel)%nat ->
  exists ev final rest,
    gauss fuel a 0 0 produce_latex = Some (ev, inr final) /\
    frames_of ev = (Some a, None) :: rest /\
    Forall (fun f : Frame => f.2 <> None) rest.
Proof.
  intros Hok Hfuel.
  destruct (gauss_run_top produce_latex fuel a Hok Hfuel)
    as (ev & final & Hgo & Hrun).
  exists ev, final.
  inversion Hrun as [? ? ? Hij|? ? ? ev' ? Hi Hj Hz Hfound Hsub
                    |? ? ? sw b a2 e ev' ? Hi Hj Hsel Hel Hsub]; subst.
  - eexists. split; [done|]. split; [done|].
    constructor; [done|constructor].
  - eexists. split; [done|]. split; [done|].
    rewrite frames_of_app. apply Forall_app. split.
    + apply (run_explained _ _ _ _ _ _ _ _ Hsub). lia.
    + constructor; [done|constructor].
  - eexists. split; [done|]. split; [done|].
    rewrite frames_of_app. apply Forall_app. split.
    + destruct Hsel; simpl; [constructor|].
      constructor; [done|constructor].
    + simpl. constructor; [done|]. constructor; [done|].
      apply (run_explained _ _ _ _ _ _ _ _ Hsub). lia.
Qed.


(** ** The loop of [main] over the frames *)

Lemma report_cons skip_unchanged last frame frames :
  report skip_unchanged last (frame :: frames) =
  (report_frame skip_unchanged last frame).1 ++
  report skip_unchanged (report_frame skip_unchanged last frame).2 frames.
Proof. simpl. by destruct (report_frame skip_unchanged last frame). Qed.

Lemma report_frame_prints skip_unchanged last frame :
  Forall (fun call : PrintCall => call.1 <> None /\ call.2 = frame.2)
    (report_frame skip_unchanged last frame).1.
Proof.
  destruct frame as [step explanations]. unfold report_frame.
  destruct (skip_unchanged && bool_decide (step = last)) eqn:Hskip;
    [constructor|]. simpl.
  destruct (bool_decide (last <> None) && bool_decide (step <> None)
            || skip_unchanged && bool_decide (step = None)) eqn:Hprint;
    [|constructor].
  constructor; [|constructor]. split; [|done]. simpl. intros ->.
  rewrite bool_decide_eq_false_2 in Hprint by (by intros Hne; apply Hne).
  simpl in Hprint. apply andb_true_iff in Hprint as [-> Hnone].
  apply bool_decide_eq_true in Hnone as ->.
  by rewrite bool_decide_eq_true_2 in Hskip.
Qed.

Lemma report_prints skip_unchanged last frames :
  Forall (fun call : PrintCall =>
            call.1 <> None /\ exists frame, frame ∈ frames /\ call.2 = frame.2)
    (report skip_unchanged last frames).
Proof.
  revert last. induction frames as [|frame frames IH]; intros last;
    [constructor|].
  rewrite report_cons. apply Forall_app. split.
  - eapply Forall_impl; [apply report_frame_prints|].
    intros call [Hm He]. split; [done|]. exists frame. split; [by left|done].
  - eapply Forall_impl; [apply IH|].
    intros call [Hm (f & Hin & He)]. split; [done|].
    exists f. split; [by right|done].
Qed.

(** X8. The loop of [main] over the trace of a matrix that [check_matrix]
    accepts, with or without [--skip-unchanged]: every call of
    [print_matrix] gets a matrix and an explanation dictionary, never
    [None]. *)
Theorem main_prints_matrix_and_explanations (a : Matrix)
    (skip_unchanged produce_latex : bool) (fuel : nat) :
  check_matrix a = inr tt -> (width a < fuel)%nat ->
  exists ev final,
    gauss fuel a 0 0 produce_latex = Some (ev, inr final) /\
    Forall (fun call : PrintCall => call.1 <> None /\ call.2 <> None)
      (report skip_unchanged None (frames_of ev)).
Proof.
  intros Hok Hfuel. destruct (check_matrix_shape a Hok) as [Ha Hm].
  destruct (gauss_run_top produce_latex fuel a Hok Hfuel)
    as (ev & final & Hgo & Hrun).
  exists ev, final. split; [done|].
  assert (exists rest, frames_of ev = (Some a, None) :: rest /\
            Forall (fun f : Frame => f.2 <> None) rest) as (rest & -> & Hrest).
  { inversion Hrun as [? ? ? Hij|? ? ? ev' ? Hi Hj Hz Hfound Hsub
                      |? ? ? sw b a2 e ev' ? Hi Hj Hsel Hel Hsub]; subst.
    - eexists. split; [done|]. constructor; [done|constructor].
    - eexists. split; [done|].
      rewrite frames_of_app. apply Forall_app. split.
      + apply (run_explained _ _ _ _ _ _ _ _ Hsub). lia.
      + constructor; [done|constructor].
    - eexists. split; [done|].
      rewrite frames_of_app. apply Forall_app. split.
      + destruct Hsel; simpl; [constructor|].
        constructor; [done|constructor].
      + simpl. constructor; [done|]. constructor; [done|].
        apply (run_explained _ _ _ _ _ _ _ _ Hsub). lia. }
  rewrite report_cons.
  assert ((report_frame skip_unchanged None (Some a, None)).1 = []) as ->.
  { unfold report_frame. rewrite andb_false_r. simpl.
    by rewrite andb_false_r. }
  simpl. eapply Forall_impl; [apply report_prints|].
  intros call [Hm' (f & Hin & He)]. split; [done|]. rewrite He.
  rewrite Forall_forall in Hrest. by apply Hrest.
Qed.

Lemma report_plain_from (b : Matrix) x (frames : list Frame) :
  b <> [] -> Forall (fun f : Frame => f.1 <> Some []) frames ->
  report false (Some b) frames =
  zip_with (fun prev cur : Frame => (prev.1, cur.2))
    ((Some b, x) :: filter (fun f : Frame => f.1 <> None) frames)
    (filter (fun f : Frame => f.1 <> None) frames).
Proof.
  revert b x. induction frames as [|[[c|] e] frames IH]; intros b x Hb Hne;
    [done| |]; apply Forall_cons in Hne as [Hc Hne]; rewrite report_cons.
  - rewrite filter_cons_True by done.
    assert (c <> []) as Hc' by (by intros ->).
    unfold report_frame. simpl.
    destruct c as [|row c]; [done|]. f_equal.
    by rewrite (IH (row :: c) e).
  - rewrite filter_cons_False by (by intros Hn; apply Hn).
    unfold report_frame. simpl. by apply (IH b x).
Qed.

(** X9. Without [--skip-unchanged], the explanations are printed one step
    ahead: the loop of [main] calls [print_matrix] once for every frame
    with a matrix but the first, with the matrix of the frame with a
    matrix before it and the explanation of the frame itself.  A frame
    without matrix, such as the sentinel, prints nothing. *)
Theorem report_one_step_ahead (frames : list Frame) :
  Forall (fun f : Frame => f.1 <> Some []) frames ->
  report false None frames =
  zip_with (fun prev cur : Frame => (prev.1, cur.2))
    (filter (fun f : Frame => f.1 <> None) frames)
    (tail (filter (fun f : Frame => f.1 <> None) frames)).
Proof.
  induction frames as [|[[c|] e] frames IH]; intros Hne; [done| |];
    apply Forall_cons in Hne as [Hc Hne]; rewrite report_cons.
  - rewrite filter_cons_True by done.
    unfold report_frame. simpl. destruct c as [|row c]; [done|].
    by rewrite (report_plain_from (row :: c) e).
  - rewrite filter_cons_False by (by intros Hn; apply Hn).
    unfold report_frame. simpl. by apply IH.
Qed.


Lemma default_last_cons {A} (b c : A) l :
  default b (last (c :: l)) = default c (last l).
Proof.
  revert b c. induction l as [|d l IH]; intros b c; [done|].
  rewrite last_cons_cons. by rewrite (IH b d), (IH c d).
Qed.

Lemma default_last_app {A} (x : A) l1 l2 :
  default x (last (l1 ++ l2)) = default (default x (last l1)) (last l2).
Proof. rewrite last_app. by destruct (last l2). Qed.

(** The frames of a run again, with the matrices of the frames before the
    sentinel: they have the shape of the input, and the last of them is
    the final matrix. *)
Lemma run_frames_last m n produce_latex a i j ev a' :
  run m n produce_latex a i j ev a' -> rect m n a ->
  exists pre k,
    frames_of ev = pre ++ sentinel :: replicate k (Some a', Some []) /\
    Forall (fun f : Frame => exists c, f.1 = Some c /\ rect m n c) pre /\
    default a (last (omap fst pre)) = a'.
Proof.
  assert (forall (b : Matrix) i j, rect m n b ->
            Forall (fun f : Frame => exists c, f.1 = Some c /\ rect m n c)
              (frames_of (initial_frame b i j)) /\
            forall x, default x (last (omap fst (frames_of (initial_frame b i j))))
                      = default x (last (omap fst (frames_of (initial_frame b i j)))) /\
                      (default x (last (omap fst (frames_of (initial_frame b i j)))) = x
                       \/ default x (last (omap fst (frames_of (initial_frame b i j)))) = b))
    as Hinit.
  { intros b i0 j0 Hb. unfold initial_frame.
    destruct (Nat.eqb i0 j0 && Nat.eqb j0 0); simpl.
    - split; [constructor; [by exists b|constructor]|]. intros x. by split; [|right].
    - split; [constructor|]. intros x. by split; [|left]. }
  induction 1 as [a i j Hij|a i j ev a' Hi Hj Hz Hfound Hrun IH
                 |a i j sw b a2 e ev a' Hi Hj Hsel Hel Hrun IH];
    intros Ha;
    change (frames_of (Enter a i j :: ?l)) with (frames_of l);
    rewrite ?frames_of_app; destruct (Hinit a i j Ha) as [Hfr0 Hlast0].
  - exists (frames_of (initial_frame a i j)), 0%nat.
    split; [done|]. split; [done|]. by destruct (Hlast0 a) as [_ [?|?]].
  - destruct (IH Ha) as (pre & k & -> & Hpre & Hlast).
    exists (frames_of (initial_frame a i j) ++ pre), (S k).
    split; [|split].
    + rewrite replicate_S_end. by rewrite <- !app_assoc.
    + by apply Forall_app.
    + rewrite omap_app, default_last_app.
      by destruct (Hlast0 a) as [_ [-> | ->]].
  - destruct (selected_spec m n produce_latex a i j sw b Ha Hi Hj Hsel)
      as (Hb & Hnz & _).
    destruct (round_spec m n produce_latex b i j a2 e Hb Hi Hj Hnz Hel)
      as (Ha2 & _).
    change (frames_of (Yield ?f :: Yield ?g :: ev)) with (f :: g :: frames_of ev).
    destruct (IH Ha2) as (pre & k & -> & Hpre & Hlast).
    exists (frames_of (initial_frame a i j) ++ frames_of sw ++
            (Some (scaled b i (coeff b i j)),
             Some [(i, exp_divide (coeff b i j) produce_latex)]) ::
            (Some a2, Some e) :: pre), k.
    split; [|split].
    + simpl. by rewrite <- !app_assoc.
    + apply Forall_app. split; [done|]. apply Forall_app. split.
      * destruct Hsel; simpl; [constructor|].
        constructor; [by eexists|constructor].
      * constructor; [eexists; split; [done|by apply scaled_rect]|].
        constructor; [by eexists|done].
    + rewrite !omap_app, !default_last_app.
      change (omap fst (?f :: (Some a2, Some e) :: pre))
        with (scaled b i (coeff b i j) :: a2 :: omap fst pre).
      by rewrite !default_last_cons.
Qed.

Lemma report_skip_replicate (b : Matrix) e k :
  report true (Some b) (replicate k (Some b, e)) = [].
Proof.
  induction k as [|k IH]; [done|]. simpl replicate. rewrite report_cons.
  unfold report_frame. simpl. rewrite bool_decide_eq_true_2 by done. done.
Qed.

Lemma report_skip_trace (pre : list Frame) :
  forall (b : Matrix) k,
    b <> [] ->
    Forall (fun f : Frame => exists c, f.1 = Some c /\ c <> []) pre ->
    let final := default b (last (omap fst pre)) in
    let printed :=
      report true (Some b)
        (pre ++ sentinel :: replicate k (Some final, Some [])) in
    (exists e rest, printed = (Some b, e) :: rest) /\
    last printed = Some (Some final, Some []) /\
    (forall t x y,
       printed !! t = Some x -> printed !! S t = Some y -> x.1 <> y.1).
Proof.
  induction pre as [|[step e] pre IH]; intros b k Hb Hpre; cbv zeta.
  - change (default b (last (omap fst (@nil Frame)))) with b.
    rewrite app_nil_l, report_cons. unfold report_frame, sentinel. simpl.
    rewrite report_skip_replicate. simpl.
    split; [by eexists _, _|]. split; [done|]. by intros [|t] x y.
  - apply Forall_cons in Hpre as [(c & Hc & Hne) Hpre]. simpl in Hc. subst step.
    change (omap fst ((Some c, e) :: pre)) with (c :: omap fst pre).
    rewrite default_last_cons.
    change (((Some c, e) :: pre) ++ ?l) with ((Some c, e) :: pre ++ l).
    rewrite report_cons.
    destruct (IH c k Hne Hpre) as ((e' & rest & Hhead) & Hlast & Hadj).
    destruct (decide (c = b)) as [->|Hcb].
    + unfold report_frame. simpl. rewrite bool_decide_eq_true_2 by done.
      simpl. split; [by eexists _, _|]. done.
    + unfold report_frame. simpl.
      rewrite bool_decide_eq_false_2 by congruence. simpl.
      destruct c as [|row c]; [done|]. simpl.
      rewrite Hhead in *. split; [by eexists _, _|]. split.
      * by rewrite last_cons_cons.
      * intros [|t] x y; simpl.
        -- intros [= <-] [= <-]. simpl. congruence.
        -- apply Hadj.
Qed.

(** X10. With [--skip-unchanged], on the trace of a matrix that
    [check_matrix] accepts, the loop of [main] never prints the same
    matrix twice in a row, and its last call of [print_matrix] shows the
    final matrix of the elimination with an empty explanation. *)
Theorem main_skip_unchanged_report (a : Matrix) (produce_latex : bool)
    (fuel : nat) :
  check_matrix a = inr tt -> (width a < fuel)%nat ->
  exists ev final printed,
    gauss fuel a 0 0 produce_latex = Some (ev, inr final) /\
    report true None (frames_of ev) = printed /\
    last printed = Some (Some final, Some []) /\
    (forall t x y,
       printed !! t = Some x -> printed !! S t = Some y -> x.1 <> y.1).
Proof.
  intros Hok Hfuel. destruct (check_matrix_shape a Hok) as [Ha Hm].
  destruct (gauss_run_top produce_latex fuel a Hok Hfuel)
    as (ev & final & Hgo & Hrun).
  exists ev, final, (report true None (frames_of ev)).
  split; [done|]. split; [done|].
  destruct (run_frames_last _ _ _ _ _ _ _ _ Hrun Ha)
    as (pre & k & Hfr & Hpre & Hlast).
  pose proof (run_first_frame _ _ _ _ _ _ Hrun) as Hfirst.
  rewrite Hfr in *. destruct pre as [|f pre]; [done|].
  simpl in Hfirst. injection Hfirst as ->.
  apply Forall_cons in Hpre as [_ Hpre].
  change (omap fst ((Some a, None) :: pre)) with (a :: omap fst pre) in Hlast.
  rewrite default_last_cons in Hlast. subst final.
  assert (a <> []) as Hne by (intros ->; simpl in Hm; lia).
  assert (Forall (fun f : Frame => exists c, f.1 = Some c /\ c <> []) pre)
    as Hpre'.
  { eapply Forall_impl; [exact Hpre|]. intros f (c & Hc & [Hlen _]).
    exists c. split; [done|]. intros ->. simpl in Hlen. lia. }
  destruct (report_skip_trace pre a k Hne Hpre') as (_ & Hend & Hadj).
  change (((Some a, None) :: pre) ++ ?l) with ((Some a, None) :: pre ++ l).
  rewrite report_cons.
  assert (report_frame true None (Some a, None) = ([], Some a)) as ->.
  { unfold report_frame. simpl. by destruct a. }
  done.
Qed.


(** ** [fill_matrix] and the arguments of [main] *)

Lemma split_semicolon_nonempty row_str : split_semicolon row_str <> [].
Proof.
  destruct row_str as [|c row_str]; simpl; [done|].
  destruct (Ascii.eqb c ";"); [done|]. by destruct (split_semicolon row_str).
Qed.

Lemma split_semicolon_length row_str :
  length (split_semicolon row_str) = S (count_semicolons row_str).
Proof.
  induction row_str as [|c row_str IH]; simpl; [done|].
  destruct (Ascii.eqb c ";"); simpl; [by rewrite IH|].
  pose proof (split_semicolon_nonempty row_str) as Hne.
  destruct (split_semicolon row_str); [done|]. done.
Qed.

Lemma fill_row_spec fields row_0 row :
  fill_row fields row_0 = inr row <->
  exists xs, row = row_0 ++ xs /\
    Forall2 (fun field x => fraction_or_zero field = inr x) fields xs.
Proof.
  revert row_0. induction fields as [|field fields IH]; intros row_0; simpl.
  - split.
    + intros [= <-]. exists []. split; [by rewrite app_nil_r|constructor].
    + intros (xs & -> & Hxs). apply Forall2_nil_inv_l in Hxs as ->.
      by rewrite app_nil_r.
  - unfold rbind. destruct (fraction_or_zero field) as [err|x] eqn:Hfield.
    + split; [done|]. intros (xs & _ & Hxs).
      apply Forall2_cons_inv_l in Hxs as (y & ys & Hy & _ & _). congruence.
    + rewrite IH. split.
      * intros (xs & -> & Hxs). exists (x :: xs).
        split; [by rewrite <- app_assoc|]. by constructor.
      * intros (xs & -> & Hxs).
        apply Forall2_cons_inv_l in Hxs as (y & ys & Hy & Hys & ->).
        exists ys. split; [|done]. rewrite <- app_assoc. simpl. congruence.
Qed.

Lemma fill_matrix_spec rows matrix_0 matrix :
  fill_matrix rows matrix_0 = inr matrix <->
  exists new, matrix = matrix_0 ++ new /\
    Forall2 (fun row_str row =>
               Forall2 (fun field x => fraction_or_zero field = inr x)
                 (split_semicolon row_str) row) rows new.
Proof.
  revert matrix_0. induction rows as [|row_str rows IH]; intros matrix_0; simpl.
  - split.
    + intros [= <-]. exists []. split; [by rewrite app_nil_r|constructor].
    + intros (new & -> & Hnew). apply Forall2_nil_inv_l in Hnew as ->.
      by rewrite app_nil_r.
  - unfold rbind.
    destruct (fill_row (split_semicolon row_str) []) as [err|row] eqn:Hrow.
    + split; [done|]. intros (new & _ & Hnew).
      apply Forall2_cons_inv_l in Hnew as (y & ys & Hy & _ & _).
      assert (fill_row (split_semicolon row_str) [] = inr y) as Hy'
        by (apply fill_row_spec; by exists y).
      congruence.
    + apply fill_row_spec in Hrow as (xs & -> & Hxs). simpl in *.
      rewrite IH. split.
      * intros (new & -> & Hnew). exists (xs :: new).
        split; [by rewrite <- app_assoc|]. by constructor.
      * intros (new & -> & Hnew).
        apply Forall2_cons_inv_l in Hnew as (y & ys & Hy & Hys & ->).
        assert (fill_row (split_semicolon row_str) [] = inr y) as Hy'
          by (apply fill_row_spec; by exists y).
        assert (fill_row (split_semicolon row_str) [] = inr xs) as Hxs'
          by (apply fill_row_spec; by exists xs).
        rewrite Hy' in Hxs'. injection Hxs' as ->.
        exists ys. split; [|done]. by rewrite <- app_assoc.
Qed.

Lemma fill_row_error fields row_0 err :
  fill_row fields row_0 = inl err ->
  exists field, field ∈ fields /\ field <> EmptyString /\
                Fraction field = inl err.
Proof.
  revert row_0. induction fields as [|field fields IH]; intros row_0; simpl;
    [done|].
  unfold rbind. destruct (fraction_or_zero field) as [err'|x] eqn:Hfield.
  - intros [= ->]. exists field. split; [by left|].
    destruct field; [done|]. by split.
  - intros Herr. destruct (IH _ Herr) as (f & Hin & Hf).
    exists f. split; [by right|done].
Qed.

(** X11. [fill_matrix] on an empty matrix returns the matrix that has,
    row by row and field by field of [row_str.split(';')], the fraction
    that [Fraction] reads from the field, and [0] for an empty field.  It
    raises only what [Fraction] raises on a non-empty field of a row. *)
Theorem fill_matrix_outcome (rows : list string) :
  (forall matrix,
     fill_matrix rows [] = inr matrix <->
     Forall2 (fun row_str row =>
                Forall2 (fun field x =>
                           if bool_decide (field = EmptyString)
                           then x = 0 else Fraction field = inr x)
                  (split_semicolon row_str) row) rows matrix) /\
  (forall err,
     fill_matrix rows [] = inl err ->
     exists row_str field,
       row_str ∈ rows /\ field ∈ split_semicolon row_str /\
       field <> EmptyString /\ Fraction field = inl err).
Proof.
  split.
  - intros matrix. rewrite fill_matrix_spec. simpl. split.
    + intros (new & -> & Hnew). eapply Forall2_impl; [exact Hnew|].
      intros row_str row Hrow. eapply Forall2_impl; [exact Hrow|].
      intros field x Hx. unfold fraction_or_zero in Hx.
      destruct field; simpl; [congruence|done].
    + intros Hnew. exists matrix. split; [done|].
      eapply Forall2_impl; [exact Hnew|].
      intros row_str row Hrow. eapply Forall2_impl; [exact Hrow|].
      intros field x Hx. unfold fraction_or_zero.
      destruct field; simpl in *; [congruence|done].
  - generalize (@nil (list Qc)).
    induction rows as [|row_str rows IH]; intros matrix_0 err; simpl; [done|].
    unfold rbind.
    destruct (fill_row (split_semicolon row_str) []) as [err'|row] eqn:Hrow.
    + intros [= ->]. destruct (fill_row_error _ _ _ Hrow) as (f & Hin & Hf).
      exists row_str, f. split; [by left|done].
    + intros Herr. destruct (IH _ _ Herr) as (r & f & Hin & Hf).
      exists r, f. split; [by right|done].
Qed.

(** X12. The matrix that [fill_matrix] returns has one row for every
    row text, and each row has one coefficient more than its text has
    semicolons.  [check_matrix] accepts it exactly when there is a row
    text and all row texts have as many semicolons as the first. *)
Theorem fill_matrix_shape (rows : list string) (matrix : Matrix) :
  fill_matrix rows [] = inr matrix ->
  length matrix = length rows /\
  Forall2 (fun row_str row => length row = S (count_semicolons row_str))
    rows matrix /\
  (check_matrix matrix = inr tt <->
   rows <> [] /\
   Forall (fun row_str =>
             count_semicolons row_str =
             count_semicolons (default EmptyString (head rows))) rows).
Proof.
  intros Hfill. apply fill_matrix_spec in Hfill as (new & -> & Hnew).
  simpl.
  assert (Forall2 (fun row_str row => length row = S (count_semicolons row_str))
            rows new) as Hlen.
  { eapply Forall2_impl; [exact Hnew|]. intros row_str row Hrow.
    apply Forall2_length in Hrow. by rewrite <- Hrow, split_semicolon_length. }
  split; [symmetry; by eapply Forall2_length|]. split; [done|].
  destruct (check_matrix_outcomes new) as (_ & -> & _).
  destruct Hlen as [|row_str row rows new Hrow Hlen]; simpl.
  { split; by intros [? _]. }
  unfold width. simpl. split.
  - intros [_ Hall]. split; [done|]. apply Forall_cons in Hall as [_ Hall].
    constructor; [done|]. clear Hnew.
    induction Hlen as [|row_str' row' rows new Hrow' Hlen IH]; [constructor|].
    apply Forall_cons in Hall as [Hr Hall]. constructor; [lia|by apply IH].
  - intros [_ Hall]. split; [done|]. apply Forall_cons in Hall as [_ Hall].
    constructor; [done|]. clear Hnew.
    induction Hlen as [|row_str' row' rows new Hrow' Hlen IH]; [constructor|].
    apply Forall_cons in Hall as [Hr Hall]. constructor; [lia|by apply IH].
Qed.

(** X13. The first loop of [main] leaves every argument without a
    semicolon as it is.  An argument with a semicolon does not start with
    a minus sign afterwards: it either starts with a semicolon and is
    left as it is, or gets a space in front, which keeps its semicolons
    and changes its fields only by this space in front of the first. *)
Theorem protect_arguments_spec (argv : list string) :
  Forall2 (fun arg arg' =>
             (contains_semicolon arg = false -> arg' = arg) /\
             (contains_semicolon arg = true ->
              starts_with "-" arg' = false /\
              count_semicolons arg' = count_semicolons arg /\
              exists field fields,
                split_semicolon arg = field :: fields /\
                (if starts_with ";" arg
                 then arg' = arg
                 else arg' = String " " arg /\
                      split_semicolon arg' = String " " field :: fields)))
    argv (protect_arguments argv).
Proof.
  unfold protect_arguments. apply Forall2_fmap_r, Forall_Forall2_diag.
  apply Forall_forall. intros arg _. unfold protect_argument. split.
  - by intros ->.
  - intros ->. simpl.
    pose proof (split_semicolon_nonempty arg) as Hne.
    destruct (split_semicolon arg) as [|field fields] eqn:Hsplit; [done|].
    destruct (starts_with ";" arg) eqn:Hstart; simpl.
    + split; [|split; [done|by exists field, fields]].
      destruct arg as [|c arg]; [done|]. simpl in *.
      apply Ascii.eqb_eq in Hstart as ->. done.
    + split; [done|]. split; [done|]. exists field, fields.
      split; [done|]. split; [done|]. by rewrite Hsplit.
Qed.

End Gauss.

(** * Concrete runs

    The runs below use the symbolic explanations. *)

#[local] Existing Instance symbolic_helpers.

Lemma gauss_terminates_witness :
  check_matrix rows_singular = inr tt /\
  (width rows_singular < 4)%nat /\
  exists ev a',
    gauss (H := symbolic_helpers) 4 rows_singular 0 0 false = Some (ev, inr a') /\
    (length (calls_of ev) <= width rows_singular + 1)%nat /\
    descent (length rows_singular) (width rows_singular) (calls_of ev).
Proof.
  split; [reflexivity|]. split; [vm_compute; lia|].
  apply (gauss_terminates (H := symbolic_helpers) rows_singular false 4);
    [reflexivity | vm_compute; lia].
Defined.

Lemma rows_singular_rect : rect 2 3 rows_singular.
Proof. split; [done|]. repeat constructor. Qed.

(** C2, as stated, fails on the singular matrix [[0,1,5],[0,2,10]]: the
    pivot at (0, 0) is zero and so is the entry below it, the invocation
    forwards the frames of the recursion on column 1, and then it does
    not return: the normalization divides by zero, and the zero-divisor
    branch yields one more frame. *)
Lemma gauss_zero_divisor_branch_runs :
  check_matrix rows_singular = inr tt /\
  coeff rows_singular 0 0 = 0 /\ coeff rows_singular 1 0 = 0 /\
  exists ev' ev a',
    gauss (H := symbolic_helpers) 3 rows_singular 0 1 false =
      Some (ev', inr a') /\
    gauss (H := symbolic_helpers) 4 rows_singular 0 0 false =
      Some (ev, inr a') /\
    frames_of ev =
      (Some rows_singular, None) :: frames_of ev' ++ [(Some a', Some [])] /\
    frames_of ev <> (Some rows_singular, None) :: frames_of ev' /\
    normalize a' 0 0 false = Some ([], inl ZeroDivisionError) /\
    try_zero_div (normalize a' 0 0 false) (yield (Some a', Some [])) =
      Some ([Yield (Some a', Some [])], inr None).
Proof.
  split; [done|]. split; [done|]. split; [done|].
  eexists _, _, _.
  split; [vm_compute; reflexivity|].
  split; [vm_compute; reflexivity|].
  split; [vm_compute; reflexivity|].
  split; [intros Heq; apply (f_equal length) in Heq; by vm_compute in Heq|].
  split; vm_compute; reflexivity.
Qed.

Lemma gauss_skips_zero_column_witness :
  rect 2 3 rows_singular /\ coeff rows_singular 0 0 = 0 /\
  exists ev a',
    gauss (H := symbolic_helpers) 3 rows_singular 0 (0 + 1) false =
      Some (ev, inr a') /\
    normalize a' 0 0 false = Some ([], inl ZeroDivisionError) /\
    gauss 4 rows_singular 0 0 false =
      Some (Enter rows_singular 0 0 :: initial_frame rows_singular 0 0 ++
            ev ++ [Yield (Some a', Some [])], inr a').
Proof.
  split; [apply rows_singular_rect|]. split; [reflexivity|].
  apply (gauss_skips_zero_column (H := symbolic_helpers) 2 3 rows_singular 0 0
           false 3).
  - apply rows_singular_rect.
  - lia.
  - lia.
  - reflexivity.
  - intros r Hr. assert (r = 1%nat) as -> by lia. reflexivity.
  - simpl. lia.
Defined.

(** C3, as stated, fails on the singular matrix [[0,1,5],[0,2,10]]: the
    sentinel is the fourth of six frames, and the last frame carries the
    final matrix with an empty explanation. *)
Lemma gauss_singular_trace_end :
  check_matrix rows_singular = inr tt /\
  exists ev a',
    gauss (H := symbolic_helpers) 4 rows_singular 0 0 false =
      Some (ev, inr a') /\
    length (frames_of ev) = 6%nat /\
    frames_of ev !! 3%nat = Some sentinel /\
    last (frames_of ev) = Some (Some a', Some []) /\
    last (frames_of ev) <> Some sentinel.
Proof.
  split; [done|]. eexists _, _.
  split; [vm_compute; reflexivity|].
  split; [vm_compute; reflexivity|].
  split; [vm_compute; reflexivity|].
  split; [vm_compute; reflexivity|].
  by vm_compute.
Qed.

Lemma gauss_trace_sentinel_witness :
  check_matrix rows_singular = inr tt /\ (width rows_singular < 4)%nat /\
  exists ev a' pre,
    gauss (H := symbolic_helpers) 4 rows_singular 0 0 false =
      Some (ev, inr a') /\
    frames_of ev =
      pre ++ sentinel :: replicate (skipped ev) (Some a', Some []) /\
    Forall (fun f : Frame => f.1 <> None) pre /\
    (skipped ev = 0%nat -> last (frames_of ev) = Some sentinel).
Proof.
  split; [reflexivity|]. split; [vm_compute; lia|].
  apply (gauss_trace_sentinel (H := symbolic_helpers) rows_singular false 4);
    [reflexivity | vm_compute; lia].
Defined.

Lemma gauss_never_raises_witness :
  check_matrix rows_singular = inr tt /\ (width rows_singular < 4)%nat /\
  (exists ev a',
     gauss (H := symbolic_helpers) 4 rows_singular 0 0 false =
       Some (ev, inr a')) /\
  (forall rec b i j,
     rect (length rows_singular) (width rows_singular) b ->
     (i < length rows_singular)%nat -> (j < width rows_singular)%nat ->
     coeff b i j = 0 ->
     normalize (H := symbolic_helpers) b i j false =
       Some ([], inl ZeroDivisionError) /\
     finish_round rec b i j (length rows_singular) false =
       Some ([Yield (Some b, Some [])], inr b)).
Proof.
  split; [reflexivity|]. split; [vm_compute; lia|].
  apply (gauss_never_raises (H := symbolic_helpers) rows_singular false 4);
    [reflexivity | vm_compute; lia].
Defined.

Lemma gauss_swaps_first_nonzero_witness :
  rect 2 3 rows_swap /\ coeff rows_swap 0 0 = 0 /\ coeff rows_swap 1 0 <> 0 /\
  exists b ev a',
    first_nonzero rows_swap 0 (0 + 1) (2 - (0 + 1)) = inr (Some 1%nat) /\
    swap_rows rows_swap 0 1 = inr b /\
    b !! 0%nat = Some (map fraction [1; 1; 8]%Z) /\
    b !! 1%nat = Some (map fraction [0; 1; 5]%Z) /\
    (forall k, k <> 0%nat -> k <> 1%nat -> b !! k = rows_swap !! k) /\
    gauss (H := symbolic_helpers) 4 rows_swap 0 0 false =
      Some (Enter rows_swap 0 0 :: initial_frame rows_swap 0 0 ++
            Yield (Some b, Some [(0%nat, Swap 0 1 false)]) :: ev, inr a').
Proof.
  assert (rect 2 3 rows_swap) as Hrect by (split; [done|repeat constructor]).
  assert (coeff rows_swap 1 0 <> 0) as Hnz by done.
  split; [exact Hrect|]. split; [reflexivity|]. split; [exact Hnz|].
  apply (proj1 (gauss_swaps_first_nonzero (H := symbolic_helpers) false)
           2%nat 3%nat rows_swap 0%nat 0%nat 1%nat
           (map fraction [0; 1; 5]%Z) (map fraction [1; 1; 8]%Z) 4%nat).
  - exact Hrect.
  - lia.
  - reflexivity.
  - lia.
  - exact Hnz.
  - intros k Hk. lia.
  - reflexivity.
  - reflexivity.
  - lia.
Defined.

(** C7, as stated, fails on the final matrix of the run on the rows
    "1;1;3" and "2;-1;0": the run on it yields six frames, the second of
    them the frame of a division. *)
Lemma gauss_rerun_not_single_frame :
  check_matrix rows_unique = inr tt /\
  exists ev final ev2 final2,
    gauss (H := symbolic_helpers) 4 rows_unique 0 0 false =
      Some (ev, inr final) /\
    gauss (H := symbolic_helpers) 4 final 0 0 false =
      Some (ev2, inr final2) /\
    length (frames_of ev2) = 6%nat /\
    frames_of ev2 <> [(Some final, None)] /\
    exists b d,
      frames_of ev2 !! 1%nat = Some (Some b, Some [(0%nat, Divide d false)]).
Proof.
  split; [done|]. eexists _, _, _, _.
  split; [vm_compute; reflexivity|].
  split; [vm_compute; reflexivity|].
  split; [vm_compute; reflexivity|].
  split; [intros Heq; apply (f_equal length) in Heq; by vm_compute in Heq|].
  eexists _, _. vm_compute. reflexivity.
Qed.

Lemma gauss_rerun_fixed_witness :
  check_matrix rows_unique = inr tt /\ (width rows_unique < 4)%nat /\
  exists ev final ev2,
    gauss (H := symbolic_helpers) 4 rows_unique 0 0 false =
      Some (ev, inr final) /\
    gauss 4 final 0 0 false = Some (ev2, inr final) /\
    Forall (fun f : Frame => f.1 = Some final \/ f = sentinel)
      (frames_of ev2) /\
    frames_of ev2 !! 0%nat = Some (Some final, None) /\
    sentinel ∈ frames_of ev2 /\
    Forall (unchanged_frame (length rows_unique) final false) (frames_of ev2) /\
    Forall (no_swap (length rows_unique) (width rows_unique) final)
      (calls_of ev2).
Proof.
  split; [reflexivity|]. split; [vm_compute; lia|].
  apply (gauss_rerun_fixed (H := symbolic_helpers) rows_unique false 4);
    [reflexivity | vm_compute; lia].
Defined.

Lemma gauss_zero_block_witness :
  check_matrix rows_swap = inr tt /\ (width rows_swap < 4)%nat /\
  exists ev a',
    gauss (H := symbolic_helpers) 4 rows_swap 0 0 false = Some (ev, inr a') /\
    Forall (fun c => zero_block c.1.1 c.1.2 c.2) (calls_of ev).
Proof.
  split; [reflexivity|]. split; [vm_compute; lia|].
  apply (proj1 (gauss_zero_block (H := symbolic_helpers) rows_swap false 4
                  eq_refl ltac:(vm_compute; lia))).
Defined.

(** ** Concrete runs for the further properties *)

Lemma rows_unique_rect : rect 2 3 rows_unique.
Proof. split; [done|]. repeat constructor. Qed.

Lemma gauss_keeps_shape_witness :
  check_matrix rows_swap = inr tt /\ (width rows_swap < 4)%nat /\
  exists ev final,
    gauss 4 rows_swap 0 0 false = Some (ev, inr final) /\
    rect (length rows_swap) (width rows_swap) final /\
    Forall (fun f : Frame =>
              forall b, f.1 = Some b ->
                rect (length rows_swap) (width rows_swap) b /\ b <> [])
      (frames_of ev).
Proof.
  split; [reflexivity|]. split; [vm_compute; lia|].
  apply (gauss_keeps_shape rows_swap false 4); [reflexivity|vm_compute; lia].
Defined.

Lemma gauss_final_echelon_witness :
  check_matrix rows_singular = inr tt /\ (width rows_singular < 4)%nat /\
  exists ev final,
    gauss 4 rows_singular 0 0 false = Some (ev, inr final) /\
    reduced (length rows_singular) (width rows_singular) final 0 0.
Proof.
  split; [reflexivity|]. split; [vm_compute; lia|].
  apply (gauss_final_echelon rows_singular false 4);
    [reflexivity|vm_compute; lia].
Defined.

Lemma gauss_keeps_solutions_witness :
  check_matrix rows_unique = inr tt /\ (width rows_unique < 4)%nat /\
  solves rows_unique [fraction 1; fraction 2] /\
  exists ev final,
    gauss 4 rows_unique 0 0 false = Some (ev, inr final) /\
    (forall x, solves rows_unique x <-> solves final x) /\
    Forall (fun f : Frame =>
              forall b, f.1 = Some b ->
                forall x, solves rows_unique x <-> solves b x)
      (frames_of ev).
Proof.
  split; [reflexivity|]. split; [vm_compute; lia|]. split.
  - intros [|[|r]] row [= <-]; apply Qc_is_canon; reflexivity.
  - apply (gauss_keeps_solutions rows_unique false 4);
      [reflexivity|vm_compute; lia].
Defined.

Lemma gauss_keeps_rows_above_witness :
  rect 2 3 rows_unique /\
  exists ev final,
    gauss 3 rows_unique 1 1 false = Some (ev, inr final) /\
    (forall r, (r < 1)%nat -> final !! r = rows_unique !! r) /\
    Forall (fun f : Frame =>
              forall b, f.1 = Some b ->
                forall r, (r < 1)%nat -> b !! r = rows_unique !! r)
      (frames_of ev).
Proof.
  split; [apply rows_unique_rect|].
  apply (gauss_keeps_rows_above 2 3 rows_unique 1 1 false 3);
    [apply rows_unique_rect|lia..].
Defined.

Lemma eliminate_result_witness :
  rect 2 3 rows_unique /\
  exists a2,
    eliminate rows_unique 0 0 (0 + 1) (2 - (0 + 1)) [] false =
      inr (a2, map (fun k => (k, exp_minus (coeff rows_unique k 0) 0 false))
                 (seq (0 + 1) (2 - (0 + 1)))) /\
    rect 2 3 a2 /\
    (forall r, (r <= 0)%nat -> a2 !! r = rows_unique !! r) /\
    (forall k row_k row_i,
       (0 < k)%nat -> rows_unique !! k = Some row_k ->
       rows_unique !! 0%nat = Some row_i ->
       a2 !! k = Some (sub_row (coeff rows_unique k 0) row_k row_i)).
Proof.
  split; [apply rows_unique_rect|].
  apply (eliminate_result 2 3 rows_unique 0 0 false);
    [apply rows_unique_rect|lia..].
Defined.

Lemma gauss_initial_frame_once_witness :
  check_matrix rows_singular = inr tt /\ (width rows_singular < 4)%nat /\
  exists ev final rest,
    gauss 4 rows_singular 0 0 false = Some (ev, inr final) /\
    frames_of ev = (Some rows_singular, None) :: rest /\
    Forall (fun f : Frame => f.2 <> None) rest.
Proof.
  split; [reflexivity|]. split; [vm_compute; lia|].
  apply (gauss_initial_frame_once rows_singular false 4);
    [reflexivity|vm_compute; lia].
Defined.

Lemma main_prints_matrix_and_explanations_witness :
  check_matrix rows_singular = inr tt /\ (width rows_singular < 4)%nat /\
  exists ev final,
    gauss 4 rows_singular 0 0 false = Some (ev, inr final) /\
    Forall (fun call : PrintCall => call.1 <> None /\ call.2 <> None)
      (report false None (frames_of ev)).
Proof.
  split; [reflexivity|]. split; [vm_compute; lia|].
  apply (main_prints_matrix_and_explanations rows_singular false false 4);
    [reflexivity|vm_compute; lia].
Defined.

Lemma report_one_step_ahead_witness :
  let frames : list Frame :=
    [(Some rows_swap, None); (Some rows_unique, Some [(0%nat, Swap 0 1 false)]);
     sentinel] in
  Forall (fun f : Frame => f.1 <> Some []) frames /\
  report false None frames =
  zip_with (fun prev cur : Frame => (prev.1, cur.2))
    (filter (fun f : Frame => f.1 <> None) frames)
    (tail (filter (fun f : Frame => f.1 <> None) frames)).
Proof.
  assert (Forall (fun f : Frame => f.1 <> Some [])
            [(Some rows_swap, None);
             (Some rows_unique, Some [(0%nat, Swap 0 1 false)]); sentinel])
    as Hne by (repeat constructor; done).
  split; [exact Hne|]. apply (report_one_step_ahead _ Hne).
Defined.

Lemma main_skip_unchanged_report_witness :
  check_matrix rows_singular = inr tt /\ (width rows_singular < 4)%nat /\
  exists ev final printed,
    gauss 4 rows_singular 0 0 false = Some (ev, inr final) /\
    report true None (frames_of ev) = printed /\
    last printed = Some (Some final, Some []) /\
    (forall t x y,
       printed !! t = Some x -> printed !! S t = Some y -> x.1 <> y.1).
Proof.
  split; [reflexivity|]. split; [vm_compute; lia|].
  apply (main_skip_unchanged_report rows_singular false 4);
    [reflexivity|vm_compute; lia].
Defined.

Lemma fill_matrix_shape_witness :
  let rows := [" -1;1/2;0.5"; "2;;0"]%string in
  exists matrix,
    fill_matrix read_fraction rows [] = inr matrix /\
    rationals matrix = [[-1; 1 # 2; 1 # 2]; [2; 0; 0]]%Q /\
    length matrix = length rows /\
    Forall2 (fun row_str row => length row = S (count_semicolons row_str))
      rows matrix /\
    (check_matrix matrix = inr tt <->
     rows <> [] /\
     Forall (fun row_str =>
               count_semicolons row_str =
               count_semicolons (default EmptyString (head rows))) rows).
Proof.
  eexists. split; [vm_compute; reflexivity|]. split; [vm_compute; reflexivity|].
  apply (fill_matrix_shape read_fraction [" -1;1/2;0.5"; "2;;0"]%string).
  vm_compute. reflexivity.
Defined.
